(** * Value and type binding of the GraphQL runtime (values.go)

    A shallow embedding of the binding core of package [graphql]:
    [isNullish], [typeFromAST], [isValidInputValue], [valueFromAST],
    [coerceValue], [getVariableValue], [getVariableValues] and
    [getArgumentValues], followed by the properties the specification
    states about them.

    Go maps are finite maps ([gmap string _]): the order in which [range]
    visits them is unspecified in Go, and every loop below either sorts the
    keys first or only inserts under the key it visits.  Slices are lists.
    A nil pointer or nil interface is [None] (or a dedicated constructor). *)

From Stdlib Require Import ZArith Ascii String List SpecFloat.
From stdpp Require Import gmap strings list fin_maps sorting pretty.

Set Warnings "-register-all,-clear-no-such-hyp".

(** ** Package [math] *)

Module math.

(** [float64(i)] for an [int] [i]: rounding to nearest even in binary64. *)
Definition float64_of_int (i : Z) : spec_float :=
  binary_normalize 53 1024 i 0 false.

(** [func IsNaN(f float64) bool { return f != f }] *)
Definition IsNaN (f : spec_float) : bool := negb (SFeqb f f).

End math.

(** ** Dynamic values ([interface{}])

    The dynamic types the binding core tells apart by reflection. [VNil] is
    the nil interface. [VPtr None] is a typed nil pointer, [VPtr (Some v)] a
    pointer to a variable holding [v]. *)

Inductive value : Type :=
  | VNil
  | VBool (b : bool)
  | VInt (i : Z)
  | VFloat32 (f : spec_float)
  | VFloat64 (f : spec_float)
  | VString (s : string)
  | VSlice (elems : list value)
  | VMap (m : gmap string value)
  | VPtr (target : option value).

(** ** Package [reflect] *)

Module reflect.

(** A [reflect.Value]; [None] is the zero Value, whose kind is Invalid. *)
Definition Value := option value.

Definition ValueOf (v : value) : Value := Some v.

(** The idiom [if v.Kind() == reflect.Ptr { v = v.Elem() }]: one level of
    pointer is followed; the target of a nil pointer is the zero Value. *)
Definition ElemIfPtr (v : Value) : Value :=
  match v with
  | Some (VPtr target) => target
  | _ => v
  end.
#[global] Arguments ElemIfPtr : simpl never.

End reflect.

(** ** What the core takes from [fmt] and [encoding/json] *)

Class Host := {
  (** [fmt.Sprintf("%v", v)] *)
  Sprint : value → string;
  (** [json.Marshal(v)]; [None] when it reports an error *)
  Marshal : value → option string
}.

(** ** Package [kinds] *)

Module kinds.
Definition Named : string := "Named".
Definition List : string := "List".
Definition NonNull : string := "NonNull".
End kinds.

(** ** Package [ast]

    A [*Name] is the [option] of its [Value] string. *)

Module ast.

(** Type references. [NilType] is the nil interface; [OtherType k] stands
    for a node of any other kind [k] that is passed as a type. *)
Inductive Type_ : Type :=
  | Named (Name : option string)
  | List (ofType : Type_)
  | NonNull (ofType : Type_)
  | NilType
  | OtherType (kind : string).

Definition GetKind (t : Type_) : option string :=
  match t with
  | Named _ => Some kinds.Named
  | List _ => Some kinds.List
  | NonNull _ => Some kinds.NonNull
  | NilType => None
  | OtherType k => Some k
  end.

Record ObjectFieldOf (V : Type) : Type := ObjectField {
  ObjectField_Name : option string;
  ObjectField_Value : option V
}.
Arguments ObjectField {V}.
Arguments ObjectField_Name {V}.
Arguments ObjectField_Value {V}.

(** Value nodes. An element of interface or pointer type may be nil. *)
Inductive Value : Type :=
  | Variable_ (Name : option string)
  | IntValue (raw : string)
  | FloatValue (raw : string)
  | StringValue (raw : string)
  | BooleanValue (b : bool)
  | EnumValue (raw : string)
  | ListValue (Values : list (option Value))
  | ObjectValue (Fields : list (option (ObjectFieldOf Value))).

Abbreviation ObjectField_ := (ObjectFieldOf Value).

Record Argument : Type := {
  Argument_Name : option string;
  Argument_Value : option Value
}.

(** [Variable *Variable] with its [Name *Name] inside. *)
Record VariableDefinition : Type := {
  VariableDefinition_Variable : option (option string);
  VariableDefinition_Type : Type_;
  VariableDefinition_DefaultValue : option Value
}.

End ast.

(** ** Package [printer] *)

Module printer.

(** Modelled from the spec: [printer.Print] on a type reference (the
    printer is not part of these sources) "producing the canonical GraphQL
    source form (e.g., [[String!]!])". *)
Fixpoint Print (t : ast.Type_) : string :=
  match t with
  | ast.Named (Some n) => n
  | ast.Named None => ""
  | ast.List t' => "[" +:+ Print t' +:+ "]"
  | ast.NonNull t' => Print t' +:+ "!"
  | ast.NilType => ""
  | ast.OtherType _ => ""
  end.

End printer.

(** ** Package [gqlerrors] *)

Module gqlerrors.

Record Error : Type := {
  Message : string;
  Nodes : list ast.VariableDefinition
}.

Definition NewError (message : string) (nodes : list ast.VariableDefinition)
  : Error := {| Message := message; Nodes := nodes |}.

Definition NewFormattedError (message : string) : Error :=
  NewError message [].

End gqlerrors.

(** ** Schema types *)

Record InputObjectFieldOf (T : Type) : Type := InputObjectField {
  Field_Type : T;
  Field_DefaultValue : value
}.
Arguments InputObjectField {T}.
Arguments Field_Type {T}.
Arguments Field_DefaultValue {T}.

(** The type algebra. A scalar or enum carries its two coercers, which return
    [VNil] for an input they do not accept. *)
Inductive type : Type :=
  | Scalar (name : string)
      (ParseValue : value → value) (ParseLiteral : ast.Value → value)
  | Enum (name : string)
      (ParseValue : value → value) (ParseLiteral : ast.Value → value)
  | InputObject (name : string) (fields : gmap string (InputObjectFieldOf type))
  | Object (name : string)
  | Interface (name : string)
  | Union (name : string)
  | List (OfType : type)
  | NonNull (OfType : type).

Abbreviation InputObjectField_ := (InputObjectFieldOf type).

(** Modelled from the spec: the [Name()] method of a type (definition.go is
    not part of these sources): "[NonNull] and [List] are wrappers; every
    other variant is a leaf with a unique non-empty [name]"; the validator
    distinguishes "when inner has a name" from "when inner is a wrapper". *)
Definition Name (t : type) : string :=
  match t with
  | Scalar n _ _ | Enum n _ _ | InputObject n _
  | Object n | Interface n | Union n => n
  | List _ | NonNull _ => ""
  end.

(** Modelled from the spec: [IsInputType] (definition.go): "one of Scalar,
    Enum, InputObject, or a wrapper (List, NonNull) whose innermost type is
    an input type". *)
Fixpoint IsInputType (t : type) : bool :=
  match t with
  | Scalar _ _ _ | Enum _ _ _ | InputObject _ _ => true
  | Object _ | Interface _ | Union _ => false
  | List t' | NonNull t' => IsInputType t'
  end.

(** Modelled from the spec: [NewList] and [NewNonNull] (definition.go):
    "recurse on the inner and wrap the result". A wrapper built around the
    absent type is no input type; it is identified with the absent type,
    which [getVariableValue] rejects on the same branch. *)
Definition NewList (ofType : option type) : option type := List <$> ofType.
Definition NewNonNull (ofType : option type) : option type := NonNull <$> ofType.

(** Modelled from the spec: "[Schema.type(name) → Type | absent]". *)
Record Schema : Type := { Schema_Type : string → option type }.

(** An argument definition of a field. *)
Record Argument : Type := {
  PrivateName : string;
  Argument_Type : type;
  Argument_DefaultValue : value
}.

(** ** Outcomes

    A call either returns or panics (a nil dereference). *)

Inductive run (A : Type) : Type :=
  | Return (a : A)
  | Panic.
Arguments Return {A}.
Arguments Panic {A}.

Definition run_bind {A B} (r : run A) (k : A → run B) : run B :=
  match r with
  | Return a => k a
  | Panic => Panic
  end.

(** ** String helpers *)

(** The double quote character and a string between two of them. *)
Definition dquote : string := String "034"%char "".
Definition quoted (s : string) : string := dquote +:+ s +:+ dquote.
Definition newline : string := String "010"%char "".

(** [strings.Join] *)
Fixpoint Join (elems : list string) (sep : string) : string :=
  match elems with
  | [] => ""
  | [s] => s
  | s :: rest => s +:+ sep +:+ Join rest sep
  end.

(** ** Package [sort] *)

Module sort.

(** The byte-wise order of Go's [<] on strings. *)
Definition string_le (s1 s2 : string) : Prop := String.leb s1 s2 = true.

#[global] Instance string_le_dec s1 s2 : Decision (string_le s1 s2).
Proof. unfold string_le. apply _. Defined.

(** [sort.Strings] *)
Definition Strings (names : list string) : list string :=
  merge_sort string_le names.

End sort.

(** The keys a [range] over a map visits. *)
Definition keys {A} (m : gmap string A) : list string := (map_to_list m).*1.

(** [m[k]] on a [map[string]interface{}]: the nil interface for a missing key. *)
Definition mapIndex (m : gmap string value) (k : string) : value :=
  default VNil (m !! k).

(** ** The binding core *)

(** Returns true if a value is null, undefined, or NaN. *)
Definition isNullish (src : value) : bool :=
  match src with
  | VNil => true
  | _ =>
    match reflect.ElemIfPtr (reflect.ValueOf src) with
    | Some (VString _) => false (* a Value of kind String is valid *)
    | Some (VInt i) => math.IsNaN (math.float64_of_int i)
    | Some (VFloat32 f) | Some (VFloat64 f) => math.IsNaN f
    | _ => false
    end
  end.

(** The loop [for name, x := range m { v := g name x; if !isNullish(v) {
    obj[name] = v } }] over a fresh [obj]. *)
Definition rangeInsert {A} (g : string → A → value) (m : gmap string A)
  : gmap string value :=
  map_fold (λ name x obj,
    let v := g name x in
    if isNullish v then obj else <[name := v]> obj) ∅ m.

(** Given a type and any value, return a runtime value coerced to match the
    type. *)
Fixpoint coerceValue (ttype : type) (v : value) {struct ttype} : value :=
  match ttype with
  | NonNull ofType => coerceValue ofType v
  | _ =>
    if isNullish v then VNil else
    match ttype with
    | List itemType =>
      match v with
      | VSlice elems => VSlice (map (coerceValue itemType) elems)
      | _ => VSlice [coerceValue itemType v]
      end
    | InputObject _ fields =>
      let valueMap := match v with VMap m => m | _ => ∅ end in
      let coerceField :=
        (λ field, (coerceValue (Field_Type field), Field_DefaultValue field))
          <$> fields in
      VMap (rangeInsert (λ fieldName '(coerce, defaultValue),
        let fieldValue := coerce (mapIndex valueMap fieldName) in
        if isNullish fieldValue then defaultValue else fieldValue) coerceField)
    | Scalar _ ParseValue _ | Enum _ ParseValue _ =>
      let parsed := ParseValue v in
      if isNullish parsed then VNil else parsed
    | _ => VNil
    end
  end.

Definition invariant (condition : bool) (message : string)
  : option gqlerrors.Error :=
  if condition then None else Some (gqlerrors.NewFormattedError message).

Fixpoint typeFromAST (schema : Schema) (inputTypeAST : ast.Type_)
  : run (option type * option gqlerrors.Error) :=
  match inputTypeAST with
  | ast.List inner =>
    run_bind (typeFromAST schema inner) (λ '(innerType, err),
      match err with
      | Some e => Return (None, Some e)
      | None => Return (NewList innerType, None)
      end)
  | ast.NonNull inner =>
    run_bind (typeFromAST schema inner) (λ '(innerType, err),
      match err with
      | Some e => Return (None, Some e)
      | None => Return (NewNonNull innerType, None)
      end)
  | ast.Named name =>
    let nameValue := default "" name in
    Return (Schema_Type schema nameValue, None)
  | _ =>
    match ast.GetKind inputTypeAST with
    | Some kind =>
      Return (None, invariant (String.eqb kind kinds.Named) "Must be a named type.")
    | None => Panic
    end
  end.

(** isValidInputValue alias isValidJSValue.
    Given a value and a GraphQL type, determine if the value will be accepted
    for that type. *)
Fixpoint isValidInputValue `{Host} (v : value) (ttype : type) {struct ttype}
  : bool * list string :=
  match ttype with
  | NonNull ofType =>
    if isNullish v then
      if negb (String.eqb (Name ofType) "") then
        (false, ["Expected " +:+ quoted (Name ofType +:+ "!") +:+ ", found null."])
      else (false, ["Expected non-null value, found null."])
    else isValidInputValue v ofType
  | _ =>
    if isNullish v then (true, []) else
    match ttype with
    | List itemType =>
      match reflect.ElemIfPtr (reflect.ValueOf v) with
      | Some (VSlice elems) =>
        let messagesReduce :=
          flat_map (λ val,
            imap (λ idx message,
                "In element #" +:+ pretty (Z.of_nat idx + 1)%Z +:+ ": " +:+ message)
              (isValidInputValue val itemType).2) elems in
        (bool_decide (length messagesReduce = 0), messagesReduce)
      | _ => isValidInputValue v itemType
      end
    | InputObject name fields =>
      match v with
      | VMap valueMap =>
        let validate :=
          (λ field, λ val, isValidInputValue val (Field_Type field)) <$> fields in
        (* to ensure stable order of field evaluation *)
        let fieldNames := sort.Strings (keys fields) in
        let valueMapFieldNames := sort.Strings (keys valueMap) in
        (* Ensure every provided field is defined. *)
        let unknown :=
          flat_map (λ fieldName,
            match fields !! fieldName with
            | None => ["In field " +:+ quoted fieldName +:+ ": Unknown field."]
            | Some _ => []
            end) valueMapFieldNames in
        (* Ensure every defined field is valid. *)
        let defined :=
          flat_map (λ fieldName,
            match validate !! fieldName with
            | Some check =>
              map (λ message, "In field " +:+ quoted fieldName +:+ ": " +:+ message)
                (check (mapIndex valueMap fieldName)).2
            | None => []
            end) fieldNames in
        let messagesReduce := unknown ++ defined in
        (bool_decide (length messagesReduce = 0), messagesReduce)
      | _ => (false, ["Expected " +:+ quoted name +:+ ", found not an object."])
      end
    | Scalar name ParseValue _ | Enum name ParseValue _ =>
      let parsedVal := ParseValue v in
      if isNullish parsedVal then
        (false, ["Expected type " +:+ quoted name +:+ ", found "
                   +:+ quoted (Sprint v) +:+ "."])
      else (true, [])
    | _ => (true, [])
    end
  end.

(** The [fieldASTs] lookup table of [valueFromAST]: nil fields and fields
    without a name are skipped, a later field replaces an earlier one. *)
Definition fieldASTsOf (fields : list (option ast.ObjectField_))
  : gmap string ast.ObjectField_ :=
  foldl (λ fieldASTs field,
    match field with
    | Some objectField =>
      match ast.ObjectField_Name objectField with
      | Some name => <[name := objectField]> fieldASTs
      | None => fieldASTs
      end
    | None => fieldASTs
    end) ∅ fields.

(** Produces a value given a GraphQL Value AST. A GraphQL type must be
    provided, which will be used to interpret different GraphQL Value
    literals. *)
Fixpoint valueFromAST (valueAST : option ast.Value) (ttype : type)
    (variables : option (gmap string value)) {struct ttype} : value :=
  match valueAST with
  | None => VNil
  (* precedence: value > type *)
  | Some (ast.Variable_ name) =>
    match name, variables with
    | Some n, Some vars => mapIndex vars n
    | _, _ => VNil
    end
  | Some node =>
    match ttype with
    | NonNull ofType => valueFromAST valueAST ofType variables
    | List ofType =>
      match node with
      | ast.ListValue items =>
        VSlice (map (λ itemAST, valueFromAST itemAST ofType variables) items)
      | _ => VSlice [valueFromAST valueAST ofType variables]
      end
    | InputObject _ fields =>
      match node with
      | ast.ObjectValue objectFields =>
        let fieldASTs := fieldASTsOf objectFields in
        let evalField :=
          (λ field, (λ fieldAST, valueFromAST fieldAST (Field_Type field) variables,
                     Field_DefaultValue field)) <$> fields in
        VMap (rangeInsert (λ name '(eval, defaultValue),
          match fieldASTs !! name with
          | Some objectField => eval (ast.ObjectField_Value objectField)
          | None => defaultValue
          end) evalField)
      | _ => VNil
      end
    | Scalar _ _ ParseLiteral | Enum _ _ ParseLiteral => ParseLiteral node
    | _ => VNil
    end
  end.

(** [variable.Name.Value] on the variable of a definition: a nil [Variable]
    or a nil [Name] is a nil dereference. *)
Definition variableNameValue (definitionAST : ast.VariableDefinition)
  : run string :=
  match ast.VariableDefinition_Variable definitionAST with
  | Some (Some name) => Return name
  | _ => Panic
  end.

(** Given a variable definition, and any value of input, return a value which
    adheres to the variable definition, or throw an error. *)
Definition getVariableValue `{Host} (schema : Schema)
    (definitionAST : ast.VariableDefinition) (input : value)
  : run (value * option gqlerrors.Error) :=
  run_bind (typeFromAST schema (ast.VariableDefinition_Type definitionAST))
  (λ '(ttype, err),
    match err with
    | Some e => Return (VNil, Some e)
    | None =>
      let printed := printer.Print (ast.VariableDefinition_Type definitionAST) in
      let fail (describe : string → string) : run (value * option gqlerrors.Error) :=
        run_bind (variableNameValue definitionAST) (λ name,
          Return (VString "",
                  Some (gqlerrors.NewError (describe name) [definitionAST]))) in
      match (ttype : option type) with
      | Some ttype =>
        if IsInputType ttype then
          let '(isValid, messages) := isValidInputValue input ttype in
          if isValid then
            match isNullish input,
                  ast.VariableDefinition_DefaultValue definitionAST with
            | true, Some defaultValue =>
              Return (valueFromAST (Some defaultValue) ttype (Some ∅), None)
            | _, _ => Return (coerceValue ttype input, None)
            end
          else if isNullish input then
            fail (λ name,
              "Variable " +:+ quoted ("$" +:+ name) +:+ " of required type "
                +:+ quoted printed +:+ " was not provided.")
          else
            (* convert input interface into string for error message *)
            let inputStr := default "" (Marshal input) in
            let messagesStr :=
              if bool_decide (0 < length messages)
              then newline +:+ Join messages newline else "" in
            fail (λ name,
              "Variable " +:+ quoted ("$" +:+ name) +:+ " got invalid value "
                +:+ inputStr +:+ "." +:+ messagesStr)
        else
          fail (λ name,
            "Variable " +:+ quoted ("$" +:+ name) +:+ " expected value of type "
              +:+ quoted printed +:+ " which cannot be used as an input type.")
      | None =>
        fail (λ name,
          "Variable " +:+ quoted ("$" +:+ name) +:+ " expected value of type "
            +:+ quoted printed +:+ " which cannot be used as an input type.")
      end
    end).

(** The loop of [getVariableValues] over the definitions still to bind, with
    the map [values] built so far. *)
Fixpoint bindVariables `{Host} (schema : Schema)
    (definitionASTs : list (option ast.VariableDefinition))
    (inputs values : gmap string value)
  : run (gmap string value * option gqlerrors.Error) :=
  match definitionASTs with
  | [] => Return (values, None)
  | defAST :: rest =>
    match defAST with
    | Some definitionAST =>
      match ast.VariableDefinition_Variable definitionAST with
      | Some (Some varName) =>
        run_bind (getVariableValue schema definitionAST (mapIndex inputs varName))
        (λ '(varValue, err),
          match err with
          | Some e => Return (values, Some e)
          | None => bindVariables schema rest inputs (<[varName := varValue]> values)
          end)
      | _ => bindVariables schema rest inputs values
      end
    | None => bindVariables schema rest inputs values
    end
  end.

(** Prepares an object map of variableValues of the correct type based on the
    provided variable definitions and arbitrary input. *)
Definition getVariableValues `{Host} (schema : Schema)
    (definitionASTs : list (option ast.VariableDefinition))
    (inputs : gmap string value)
  : run (gmap string value * option gqlerrors.Error) :=
  bindVariables schema definitionASTs inputs ∅.

(** The [argASTMap] of [getArgumentValues]: arguments without a name are
    skipped, a later argument replaces an earlier one of the same name. *)
Definition argASTMapOf (argASTs : list ast.Argument) : gmap string ast.Argument :=
  foldl (λ argASTMap argAST,
    match ast.Argument_Name argAST with
    | Some name => <[name := argAST]> argASTMap
    | None => argASTMap
    end) ∅ argASTs.

(** The value an argument definition ends up with: the evaluated AST value
    or, when that is nullish, the default of the definition. *)
Definition argumentValue (argASTMap : gmap string ast.Argument)
    (variableValues : option (gmap string value)) (argDef : Argument) : value :=
  let valueAST :=
    match argASTMap !! PrivateName argDef with
    | Some tmpValue => ast.Argument_Value tmpValue
    | None => None
    end in
  let tmp := valueFromAST valueAST (Argument_Type argDef) variableValues in
  if isNullish tmp then Argument_DefaultValue argDef else tmp.

(** One turn of the loop of [getArgumentValues] over the definitions. *)
Definition bindArgument (argASTMap : gmap string ast.Argument)
    (variableValues : option (gmap string value))
    (results : gmap string value) (argDef : Argument) : gmap string value :=
  let tmp := argumentValue argASTMap variableValues argDef in
  if isNullish tmp then results else <[PrivateName argDef := tmp]> results.

(** Prepares an object map of argument values given a list of argument
    definitions and list of argument AST nodes. The elements of both slices
    are non-nil pointers. *)
Definition getArgumentValues (argDefs : list Argument)
    (argASTs : list ast.Argument) (variableValues : option (gmap string value))
  : gmap string value :=
  let argASTMap := argASTMapOf argASTs in
  foldl (bindArgument argASTMap variableValues) ∅ argDefs.

(** ** The scenarios of the specification *)

Module scenarios.

(** Modelled from the spec: the built-in scalars [String] and [Boolean]
    (scalars.go is not part of these sources), "with standard coercers":
    a value of another kind is not coercible, as scenario 4 expects of the
    input [1] for a [String] field. *)
Definition String_ : type :=
  Scalar "String"
    (λ v, match v with VString s => VString s | _ => VNil end)
    (λ node, match node with ast.StringValue s => VString s | _ => VNil end).

Definition Boolean : type :=
  Scalar "Boolean"
    (λ v, match v with VBool b => VBool b | _ => VNil end)
    (λ node, match node with ast.BooleanValue b => VBool b | _ => VNil end).

(** [input Complex { a: String = "foo", b: [String] }] *)
Definition ComplexFields : gmap string InputObjectField_ :=
  <["a" := InputObjectField String_ (VString "foo")]>
    (<["b" := InputObjectField (List String_) VNil]> ∅).

Definition Complex : type := InputObject "Complex" ComplexFields.

(** Modelled from the spec: an enum "accepts the external name form" and
    returns "the enum's internal value or the absent sentinel"; here
    [enum Color { RED GREEN }] with the internal values 0 and 1. *)
Definition Color : type :=
  Enum "Color"
    (λ v, match v with
          | VString "RED" => VInt 0
          | VString "GREEN" => VInt 1
          | _ => VNil
          end)
    (λ node, match node with
             | ast.EnumValue "RED" => VInt 0
             | ast.EnumValue "GREEN" => VInt 1
             | _ => VNil
             end).

Definition typeMap : gmap string type :=
  <["String" := String_]> (<["Boolean" := Boolean]>
    (<["Complex" := Complex]> (<["Color" := Color]> ∅))).

Definition schema : Schema := {| Schema_Type := λ name, typeMap !! name |}.

(** The host functions on the values the scenarios print: nil, booleans,
    ints and strings free of characters that JSON escapes. No statement
    depends on what they return for a value of another kind. *)
Definition host : Host := {|
  Sprint v :=
    match v with
    | VNil => "<nil>"
    | VBool true => "true"
    | VBool false => "false"
    | VInt i => pretty i
    | VString s => s
    | _ => ""
    end;
  Marshal v :=
    match v with
    | VNil => Some "null"
    | VBool true => Some "true"
    | VBool false => Some "false"
    | VInt i => Some (pretty i)
    | VString s => Some (quoted s)
    | _ => None
    end
|}.

(** [$v: t] without a default value *)
Definition variable (name : string) (t : ast.Type_) : ast.VariableDefinition :=
  {| ast.VariableDefinition_Variable := Some (Some name);
     ast.VariableDefinition_Type := t;
     ast.VariableDefinition_DefaultValue := None |}.

End scenarios.

(** ** Notions the statements use *)

(** A floating-point NaN, or an integer that the float cast reports as NaN. *)
Definition nanValue (v : value) : Prop :=
  (∃ f, math.IsNaN f = true ∧ (v = VFloat32 f ∨ v = VFloat64 f)) ∨
  (∃ i, v = VInt i ∧ math.IsNaN (math.float64_of_int i) = true).

(** [x] stands somewhere before [y] in [l]. *)
Definition precedes {A} (x y : A) (l : list A) : Prop :=
  ∃ l1 l2 l3, l = l1 ++ x :: l2 ++ y :: l3.

(** The value a field of an input object ends up with: the coerced input
    or, when that is nullish, the default of the field. *)
Definition fieldFinalValue (valueMap : gmap string value) (fieldName : string)
    (field : InputObjectField_) : value :=
  let fieldValue := coerceValue (Field_Type field) (mapIndex valueMap fieldName) in
  if isNullish fieldValue then Field_DefaultValue field else fieldValue.

(** The names of the variables that a list of definitions declares: those
    of the definitions [getVariableValues] does not skip. *)
Definition declaredNames (definitionASTs : list (option ast.VariableDefinition))
  : list string :=
  omap (λ defAST,
    definitionAST ← defAST;
    variable ← ast.VariableDefinition_Variable definitionAST;
    variable) definitionASTs.

(** The node a type reference ends in, below its list and non-null
    wrappers. *)
Inductive leaf : Type :=
  | LeafNamed (name : option string)
  | LeafNil
  | LeafOther (kind : string).

Fixpoint innermost (t : ast.Type_) : leaf :=
  match t with
  | ast.List inner | ast.NonNull inner => innermost inner
  | ast.Named name => LeafNamed name
  | ast.NilType => LeafNil
  | ast.OtherType kind => LeafOther kind
  end.

(** The list and non-null wrappers of a type reference, put around a schema
    type. *)
Fixpoint wrapLike (t : ast.Type_) (named : type) : type :=
  match t with
  | ast.List inner => List (wrapLike inner named)
  | ast.NonNull inner => NonNull (wrapLike inner named)
  | _ => named
  end.

(** A type without the non-null markers of its wrappers. *)
Fixpoint stripNonNull (t : type) : type :=
  match t with
  | List ofType => List (stripNonNull ofType)
  | NonNull ofType => stripNonNull ofType
  | _ => t
  end.

(** The number of nodes of a type, the field types of input objects
    included. *)
Fixpoint type_size (t : type) : nat :=
  match t with
  | InputObject _ fields =>
    S (map_fold (λ _ n acc, n + acc) 0
         ((λ field, type_size (Field_Type field)) <$> fields))
  | List ofType | NonNull ofType => S (type_size ofType)
  | _ => 1
  end.

(** The fields of an object literal that carry the name [name], in the order
    of the literal. *)
Definition fieldsNamed (name : string) (fields : list (option ast.ObjectField_))
  : list ast.ObjectField_ :=
  omap (λ field,
    objectField ← field;
    fieldName ← ast.ObjectField_Name objectField;
    if decide (fieldName = name) then Some objectField else None) fields.

(** The arguments that carry the name [name], in their order. *)
Definition argumentsNamed (name : string) (argASTs : list ast.Argument)
  : list ast.Argument :=
  omap (λ argAST,
    argName ← ast.Argument_Name argAST;
    if decide (argName = name) then Some argAST else None) argASTs.

(** * Properties *)

(** ** Floats *)

Section floats.

Lemma IsNaN_spec f : math.IsNaN f = true ↔ f = S754_nan.
Proof.
  unfold math.IsNaN, SFeqb.
  destruct f as [s|s| |s m e]; simpl; [by destruct s|by destruct s|done|].
  destruct s; rewrite Z.compare_refl, Pos.compare_cont_refl; done.
Qed.

Lemma shr_1_nonneg mrs : (0 ≤ shr_m mrs)%Z → (0 ≤ shr_m (shr_1 mrs))%Z.
Proof. destruct mrs as [[|[p|p|]|[p|p|]] r s]; simpl; lia. Qed.

Lemma iter_shr_1_nonneg n mrs :
  (0 ≤ shr_m mrs)%Z → (0 ≤ shr_m (SpecFloat.iter_pos shr_1 n mrs))%Z.
Proof.
  revert mrs. induction n; intros mrs Hm; simpl; auto using shr_1_nonneg.
Qed.

Lemma shr_nonneg mrs e n : (0 ≤ shr_m mrs)%Z → (0 ≤ shr_m (shr mrs e n).1)%Z.
Proof.
  intros Hm. unfold shr. destruct n; simpl; auto using iter_shr_1_nonneg.
Qed.

Lemma shr_fexp_nonneg prec emax m e l :
  (0 ≤ m)%Z → (0 ≤ shr_m (shr_fexp prec emax m e l).1)%Z.
Proof.
  intros Hm. unfold shr_fexp. apply shr_nonneg. by destruct l as [|[]].
Qed.

Lemma round_nearest_even_nonneg m l :
  (0 ≤ m)%Z → (0 ≤ round_nearest_even m l)%Z.
Proof.
  intros Hm. unfold round_nearest_even.
  destruct l as [|[]]; try lia. destruct (IntDef.Z.even m); lia.
Qed.

(** Rounding a non-negative mantissa gives a zero, a finite number or an
    infinity. *)
Lemma binary_round_aux_not_nan prec emax sx mx ex lx :
  (0 ≤ mx)%Z → binary_round_aux prec emax sx mx ex lx ≠ S754_nan.
Proof.
  intros Hm. unfold binary_round_aux.
  pose proof (shr_fexp_nonneg prec emax mx ex lx Hm) as H1.
  destruct (shr_fexp prec emax mx ex lx) as [mrs' e']. simpl in H1.
  pose proof (shr_fexp_nonneg prec emax _ e' loc_Exact
    (round_nearest_even_nonneg _ (loc_of_shr_record mrs') H1)) as H2.
  destruct (shr_fexp prec emax _ e' loc_Exact) as [mrs'' e'']. simpl in H2.
  destruct (shr_m mrs''); [done | by case_match | lia].
Qed.

(** The float cast of an int is never NaN. *)
Lemma float64_of_int_not_NaN i : math.IsNaN (math.float64_of_int i) = false.
Proof.
  apply not_true_is_false. rewrite IsNaN_spec.
  unfold math.float64_of_int, binary_normalize, binary_round.
  destruct i; [done| |];
    destruct (shl_align _ _ _); apply binary_round_aux_not_nan; lia.
Qed.

End floats.

(** ** The nullishness predicate *)

Section nullish.

Lemma isNullish_VSlice elems : isNullish (VSlice elems) = false.
Proof. done. Qed.

Lemma isNullish_VMap m : isNullish (VMap m) = false.
Proof. done. Qed.

Lemma isNullish_VInt i : isNullish (VInt i) = false.
Proof. apply float64_of_int_not_NaN. Qed.

(** C4, as the specification states it, fails on a pointer: a [*float64]
    that points to a NaN is none of the nil interface, a float and an int,
    and [isNullish] follows the pointer and answers true. *)
Lemma isNullish_pointer_to_NaN :
  let v := VPtr (Some (VFloat64 S754_nan)) in
  isNullish v = true ∧ ¬ (v = VNil ∨ nanValue v).
Proof.
  split; [done|]. intros [?|[(f & _ & [?|?])|(i & ? & _)]]; discriminate.
Qed.

(** C4 (amended): for every value [v] that is not a nil pointer,
    [isNullish v] is true iff [v] is the nil interface, or [v] itself or the
    target of the pointer [v] is a floating-point NaN or an integer that the
    float cast reports as NaN, which no integer is; so it is false for the
    empty string and for zero. *)
Theorem isNullish_iff :
  (∀ v, v ≠ VPtr None →
     (isNullish v = true ↔
        v = VNil ∨ nanValue v ∨ ∃ w, v = VPtr (Some w) ∧ nanValue w)) ∧
  (∀ i, isNullish (VInt i) = false) ∧
  isNullish (VString "") = false ∧
  isNullish (VFloat64 (S754_zero false)) = false.
Proof.
  split; [|by auto using isNullish_VInt].
  intros v Hv. destruct v as [| | | | | | | |[w|]]; simpl;
    [|try destruct w; simpl; unfold nanValue; naive_solver..].
  naive_solver.
Qed.

Lemma isNullish_iff_witness :
  VPtr (Some (VFloat32 S754_nan)) ≠ VPtr None ∧
  (isNullish (VPtr (Some (VFloat32 S754_nan))) = true ↔
     VPtr (Some (VFloat32 S754_nan)) = VNil ∨
     nanValue (VPtr (Some (VFloat32 S754_nan))) ∨
     ∃ w, VPtr (Some (VFloat32 S754_nan)) = VPtr (Some w) ∧ nanValue w).
Proof.
  split; [discriminate|].
  exact (proj1 isNullish_iff (VPtr (Some (VFloat32 S754_nan)))
           ltac:(discriminate)).
Defined.

End nullish.

(** ** The order of strings and [sort.Strings] *)

Section sorting.

Lemma compare_not_Gt_trans s1 s2 s3 :
  String.compare s1 s2 ≠ Gt → String.compare s2 s3 ≠ Gt →
  String.compare s1 s3 ≠ Gt.
Proof.
  revert s2 s3.
  induction s1 as [|c1 s1 IH]; intros [|c2 s2] [|c3 s3]; simpl; try done.
  unfold Ascii.compare.
  destruct (N.compare_spec (N_of_ascii c1) (N_of_ascii c2)); [| |done];
    destruct (N.compare_spec (N_of_ascii c2) (N_of_ascii c3)); try done;
    destruct (N.compare_spec (N_of_ascii c1) (N_of_ascii c3));
    try done; try lia.
  apply IH.
Qed.

#[global] Instance string_le_trans : Transitive sort.string_le.
Proof.
  intros s1 s2 s3. unfold sort.string_le, String.leb.
  pose proof (compare_not_Gt_trans s1 s2 s3).
  repeat case_match; naive_solver.
Qed.

#[global] Instance string_le_total : Total sort.string_le.
Proof. intros s1 s2. apply String.leb_total. Qed.

Lemma Strings_sorted names : StronglySorted sort.string_le (sort.Strings names).
Proof. apply StronglySorted_merge_sort; apply _. Qed.

Lemma Strings_permutation names : sort.Strings names ≡ₚ names.
Proof. apply merge_sort_Permutation. Qed.

Lemma elem_of_Strings name names : name ∈ sort.Strings names ↔ name ∈ names.
Proof. by rewrite Strings_permutation. Qed.

Lemma elem_of_keys {A} (m : gmap string A) name :
  name ∈ keys m ↔ is_Some (m !! name).
Proof.
  unfold keys. rewrite list_elem_of_fmap. split.
  - intros [[k x] [-> Hkx]]. apply elem_of_map_to_list in Hkx. by exists x.
  - intros [x Hx]. exists (name, x). by rewrite elem_of_map_to_list.
Qed.

End sorting.

(** ** The input validator *)

Section validator.
Context `{Host}.

(** What the input-object branch returns. *)
Lemma isValidInputValue_InputObject name fields valueMap :
  (isValidInputValue (VMap valueMap) (InputObject name fields)).2 =
    flat_map (λ fieldName,
      match fields !! fieldName with
      | None => ["In field " +:+ quoted fieldName +:+ ": Unknown field."]
      | Some _ => []
      end) (sort.Strings (keys valueMap))
    ++
    flat_map (λ fieldName,
      match fields !! fieldName with
      | Some field =>
        map (λ message, "In field " +:+ quoted fieldName +:+ ": " +:+ message)
          (isValidInputValue (mapIndex valueMap fieldName) (Field_Type field)).2
      | None => []
      end) (sort.Strings (keys fields)).
Proof.
  simpl. f_equal. apply flat_map_ext. intros fieldName.
  rewrite lookup_fmap. by destruct (fields !! fieldName).
Qed.

(** The flag is true exactly when no message is returned. *)
Lemma isValidInputValue_ok v ttype :
  (isValidInputValue v ttype).1 = true ↔ (isValidInputValue v ttype).2 = [].
Proof.
  revert v. induction ttype as [| | | | | |itemType IH|ofType IH]; intros v;
    simpl; try (destruct (isNullish v) eqn:Hv; simpl; [done|]);
    try done; try (by case_match).
  - destruct v; simpl; try done.
    by rewrite bool_decide_eq_true, length_zero_iff_nil.
  - destruct (reflect.ElemIfPtr (reflect.ValueOf v)) as [[]|]; simpl;
      try apply IH.
    by rewrite bool_decide_eq_true, length_zero_iff_nil.
  - destruct (isNullish v); [by case_match|apply IH].
Qed.

End validator.

(** ** Order of the messages for an input object *)

Section object_messages.
Import scenarios.

(** C1, as the specification states it, fails on its own example: for
    [Complex] and the input [{"a": 1, "c": true}] the message about the
    unknown field [c] is returned first and the message about the field
    [a] second, so the list is not in the order of the field names. *)
Lemma isValidInputValue_unknown_field_first :
  let input := VMap (<["a" := VInt 1]> (<["c" := VBool true]> ∅)) in
  let messageA :=
    "In field " +:+ quoted "a" +:+ ": Expected type " +:+ quoted "String"
      +:+ ", found " +:+ quoted "1" +:+ "." in
  let messageC := "In field " +:+ quoted "c" +:+ ": Unknown field." in
  (isValidInputValue (H := host) input Complex).2 = [messageC; messageA] ∧
  ¬ precedes messageA messageC (isValidInputValue (H := host) input Complex).2.
Proof.
  intros input messageA messageC.
  assert ((isValidInputValue (H := host) input Complex).2
          = [messageC; messageA]) as -> by by vm_compute.
  split; [done|]. intros (l1 & l2 & l3 & Heq).
  destruct l1 as [|? [|? l1]], l2 as [|? l2]; simplify_eq.
  all: by destruct l1.
Qed.

(** C1 (amended): for every input-object type and every map,
    [isValidInputValue] sorts the defined and the provided field names
    lexicographically, and the message list is the messages about the
    provided names that are not defined, in that sorted order, followed by
    the messages about the defined fields, in that sorted order; so for
    [Complex] and [{"a": 1, "c": true}] the message about [c] precedes the
    message about [a]. *)
Theorem isValidInputValue_object_order :
  (∀ (H : Host) name fields valueMap,
     let fieldNames := sort.Strings (keys fields) in
     let valueMapFieldNames := sort.Strings (keys valueMap) in
     StronglySorted sort.string_le fieldNames ∧
     fieldNames ≡ₚ keys fields ∧
     StronglySorted sort.string_le valueMapFieldNames ∧
     valueMapFieldNames ≡ₚ keys valueMap ∧
     (isValidInputValue (VMap valueMap) (InputObject name fields)).2 =
       flat_map (λ fieldName,
         match fields !! fieldName with
         | None => ["In field " +:+ quoted fieldName +:+ ": Unknown field."]
         | Some _ => []
         end) valueMapFieldNames
       ++
       flat_map (λ fieldName,
         match fields !! fieldName with
         | Some field =>
           map (λ message,
               "In field " +:+ quoted fieldName +:+ ": " +:+ message)
             (isValidInputValue (mapIndex valueMap fieldName)
                (Field_Type field)).2
         | None => []
         end) fieldNames) ∧
  precedes
    ("In field " +:+ quoted "c" +:+ ": Unknown field.")
    ("In field " +:+ quoted "a" +:+ ": Expected type " +:+ quoted "String"
       +:+ ", found " +:+ quoted "1" +:+ ".")
    (isValidInputValue (H := host)
       (VMap (<["a" := VInt 1]> (<["c" := VBool true]> ∅))) Complex).2.
Proof.
  split.
  - intros H name fields valueMap fieldNames valueMapFieldNames.
    split_and!; try apply Strings_sorted; try apply Strings_permutation.
    apply isValidInputValue_InputObject.
  - exists [], [], []. by vm_compute.
Qed.

End object_messages.

(** ** Numbering of the messages for a list *)

Section list_messages.
Import scenarios.

(** C2 at the input [["a", 1]] for the type [[String]]: the second element
    is the one that fails, and its message is numbered 1, the position of
    the message among the messages of that element. *)
Lemma isValidInputValue_element_number :
  isValidInputValue (H := host) (VSlice [VString "a"; VInt 1]) (List String_)
  = (false, ["In element #1: Expected type " +:+ quoted "String"
               +:+ ", found " +:+ quoted "1" +:+ "."]).
Proof. by vm_compute. Qed.

(** The number in the prefix is the 1-based position of the message among
    the messages of its element, whatever the position of the element. *)
Lemma isValidInputValue_List_messages `{Host} itemType elems :
  (isValidInputValue (VSlice elems) (List itemType)).2 =
    flat_map (λ val,
      imap (λ idx message,
          "In element #" +:+ pretty (Z.of_nat idx + 1)%Z +:+ ": " +:+ message)
        (isValidInputValue val itemType).2) elems.
Proof. done. Qed.

(** A value that is no sequence is validated against the item type, with
    no prefix. *)
Lemma isValidInputValue_List_single `{Host} itemType v :
  isNullish v = false →
  (∀ elems, reflect.ElemIfPtr (reflect.ValueOf v) ≠ Some (VSlice elems)) →
  isValidInputValue v (List itemType) = isValidInputValue v itemType.
Proof.
  intros Hv Hseq. simpl. rewrite Hv.
  destruct (reflect.ElemIfPtr (reflect.ValueOf v)) as [[]|]; try done.
  by edestruct Hseq.
Qed.

End list_messages.

(** ** The runtime-value coercer *)

Section coercer.
Import scenarios.

(** The map [rangeInsert] builds holds, under each key of [m], the value
    computed for it, unless that value is nullish. *)
Lemma lookup_rangeInsert {A} (g : string → A → value) (m : gmap string A) k :
  rangeInsert g m !! k =
    x ← m !! k; if isNullish (g k x) then None else Some (g k x).
Proof.
  unfold rangeInsert.
  apply (map_fold_weak_ind (λ r (m : gmap string A),
    r !! k = x ← m !! k; if isNullish (g k x) then None else Some (g k x))).
  { by rewrite !lookup_empty. }
  intros j y m' r Hj IH. destruct (decide (j = k)) as [->|Hne].
  - rewrite (lookup_insert_eq m'). simpl.
    destruct (isNullish (g k y)); [|by rewrite lookup_insert_eq].
    by rewrite IH, Hj.
  - rewrite (lookup_insert_ne m') by done.
    destruct (isNullish (g j y)); [done|]. by rewrite lookup_insert_ne.
Qed.

Lemma rangeInsert_fmap {A B} (g : string → B → value) (f : A → B)
    (m : gmap string A) :
  rangeInsert g (f <$> m) = rangeInsert (λ k x, g k (f x)) m.
Proof.
  apply map_eq. intros k. rewrite !lookup_rangeInsert, lookup_fmap.
  by destruct (m !! k).
Qed.

Lemma coerceValue_InputObject name fields v :
  isNullish v = false →
  coerceValue (InputObject name fields) v =
    VMap (rangeInsert
      (fieldFinalValue match v with VMap m => m | _ => ∅ end) fields).
Proof.
  intros Hv. simpl. rewrite Hv. f_equal. by rewrite rangeInsert_fmap.
Qed.

Lemma coerceValue_nullish ttype v : isNullish v = true → coerceValue ttype v = VNil.
Proof.
  intros Hv. induction ttype; simpl; rewrite ?Hv; done.
Qed.

Lemma coerceValue_List_VSlice itemType elems :
  coerceValue (List itemType) (VSlice elems) =
    VSlice (map (coerceValue itemType) elems).
Proof. done. Qed.

(** A non-nullish value that the validator accepts for an input type has a
    non-nullish coercion. *)
Lemma coerceValue_valid_not_nullish `{Host} ttype v :
  IsInputType ttype = true →
  isNullish v = false →
  (isValidInputValue v ttype).1 = true →
  isNullish (coerceValue ttype v) = false.
Proof.
  intros Hin Hv.
  induction ttype as [n pv pl|n pv pl| | | | | |ofType IH]; simpl in *;
    rewrite ?Hv; try done.
  - by destruct (isNullish (pv v)) eqn:Hpv.
  - by destruct (isNullish (pv v)) eqn:Hpv.
  - by destruct v.
  - auto.
Qed.

(** C6, as the specification states it, fails on the nil value: it is no
    sequence, and under a list type it is coerced to nil, not to a sequence
    of one element. *)
Lemma coerceValue_List_nil_not_wrapped :
  (∀ elems, VNil ≠ VSlice elems) ∧
  coerceValue (List String_) VNil = VNil ∧
  ¬ ∃ x, coerceValue (List String_) VNil = VSlice [x].
Proof. split_and!; [done..|]. by intros [x Hx]. Qed.

(** C6 (amended): for every list type [[T]], [coerceValue] turns every
    value that is neither a sequence nor nullish into the sequence of its one
    coercion under [T], and [valueFromAST] turns every value node that is
    neither a [ListValue] nor a variable into the sequence of its one
    evaluation under [T]. *)
Theorem single_element_wrapping :
  (∀ itemType v,
     isNullish v = false → (∀ elems, v ≠ VSlice elems) →
     coerceValue (List itemType) v = VSlice [coerceValue itemType v]) ∧
  (∀ itemType node variables,
     (∀ items, node ≠ ast.ListValue items) →
     (∀ name, node ≠ ast.Variable_ name) →
     valueFromAST (Some node) (List itemType) variables =
       VSlice [valueFromAST (Some node) itemType variables]).
Proof.
  split.
  - intros itemType v Hv Hseq. simpl. rewrite Hv.
    destruct v; try done. by edestruct Hseq.
  - intros itemType node variables Hlist Hvar.
    destruct node; simpl; try done.
    + by edestruct Hvar.
    + by edestruct Hlist.
Qed.

Lemma single_element_wrapping_witness :
  (isNullish (VString "x") = false ∧ (∀ elems, VString "x" ≠ VSlice elems) ∧
   coerceValue (List String_) (VString "x") = VSlice [VString "x"]) ∧
  ((∀ items, ast.StringValue "x" ≠ ast.ListValue items) ∧
   (∀ name, ast.StringValue "x" ≠ ast.Variable_ name) ∧
   valueFromAST (Some (ast.StringValue "x")) (List String_) None =
     VSlice [VString "x"]).
Proof.
  split.
  - split; [reflexivity|]. split; [discriminate|].
    exact (proj1 single_element_wrapping String_ (VString "x") eq_refl
             (λ elems, ltac:(discriminate))).
  - split; [discriminate|]. split; [discriminate|].
    exact (proj2 single_element_wrapping String_ (ast.StringValue "x") None
             (λ items, ltac:(discriminate)) (λ name, ltac:(discriminate))).
Defined.

(** C7, as the specification states it, fails for a list of enum values:
    the name [RED] is coerced to the internal value 0, which is no name of
    the enum and is coerced to nil. *)
Lemma coerceValue_List_not_idempotent :
  let xs := VSlice [VString "RED"] in
  coerceValue (List Color) xs = VSlice [VInt 0] ∧
  coerceValue (List Color) (coerceValue (List Color) xs) = VSlice [VNil] ∧
  coerceValue (List Color) (coerceValue (List Color) xs)
    ≠ coerceValue (List Color) xs.
Proof. by split_and!. Qed.

(** C7 (amended): for every list type [[T]] and every sequence [xs],
    coercing the coercion of [xs] gives the coercion of [xs] exactly when the
    coercion under [T] is idempotent on every element of [xs]. *)
Theorem coerceValue_List_idempotent_iff :
  ∀ itemType elems,
    coerceValue (List itemType) (coerceValue (List itemType) (VSlice elems))
      = coerceValue (List itemType) (VSlice elems)
    ↔ ∀ x, x ∈ elems →
        coerceValue itemType (coerceValue itemType x) = coerceValue itemType x.
Proof.
  intros itemType elems. rewrite !coerceValue_List_VSlice. split.
  - intros Heq x Hx. injection Heq as Heq. rewrite <-list_fmap_compose in Heq.
    apply list_elem_of_lookup in Hx as [i Hi].
    apply (f_equal (.!! i)) in Heq. rewrite !list_lookup_fmap, Hi in Heq.
    by injection Heq.
  - intros Hidem. f_equal. rewrite <-list_fmap_compose.
    apply list_fmap_ext. intros i x Hi. apply Hidem.
    by eapply list_elem_of_lookup_2.
Qed.

(** A scalar whose [ParseValue] returns values it maps to themselves has an
    idempotent coercion. *)
Lemma coerceValue_Scalar_idempotent name ParseValue ParseLiteral :
  (∀ v, ParseValue (ParseValue v) = ParseValue v) →
  ∀ v, coerceValue (Scalar name ParseValue ParseLiteral)
         (coerceValue (Scalar name ParseValue ParseLiteral) v)
       = coerceValue (Scalar name ParseValue ParseLiteral) v.
Proof.
  intros Hidem v. simpl. destruct (isNullish v) eqn:Hv; [done|].
  destruct (isNullish (ParseValue v)) eqn:Hpv; [done|].
  by rewrite Hpv, Hidem, Hpv.
Qed.

(** C10: under a list type a sequence is coerced to a sequence of the same
    length that holds, at each position, the coercion of the element at that
    position, nil included; under an input-object type a field whose final
    value is nullish has no entry in the result. *)
Theorem coerceValue_List_keeps_length :
  (∀ itemType elems,
     isNullish (VSlice elems) = false ∧
     ∃ out,
       coerceValue (List itemType) (VSlice elems) = VSlice out ∧
       length out = length elems ∧
       ∀ i, out !! i = coerceValue itemType <$> elems !! i) ∧
  coerceValue (List String_) (VSlice [VString "a"; VInt 1; VString "b"])
    = VSlice [VString "a"; VNil; VString "b"] ∧
  (∀ name fields v fieldName field,
     isNullish v = false →
     fields !! fieldName = Some field →
     isNullish
       (fieldFinalValue match v with VMap m => m | _ => ∅ end fieldName field)
       = true →
     ∃ obj,
       coerceValue (InputObject name fields) v = VMap obj ∧
       obj !! fieldName = None).
Proof.
  split_and!.
  - intros itemType elems. split; [done|].
    exists (map (coerceValue itemType) elems). split_and!; [done| |].
    + by rewrite length_map.
    + intros i. apply list_lookup_fmap.
  - done.
  - intros name fields v fieldName field Hv Hfield Hfinal.
    eexists. split; [by apply coerceValue_InputObject|].
    rewrite lookup_rangeInsert, Hfield. simpl. by rewrite Hfinal.
Qed.

Lemma coerceValue_List_keeps_length_witness :
  isNullish (VMap ∅) = false ∧
  ComplexFields !! "b" = Some (InputObjectField (List String_) VNil) ∧
  isNullish (fieldFinalValue ∅ "b" (InputObjectField (List String_) VNil))
    = true ∧
  ∃ obj, coerceValue Complex (VMap ∅) = VMap obj ∧ obj !! "b" = None.
Proof.
  split; [reflexivity|]. split; [reflexivity|]. split; [reflexivity|].
  exact (proj2 (proj2 coerceValue_List_keeps_length) "Complex" ComplexFields
           (VMap ∅) "b" (InputObjectField (List String_) VNil)
           eq_refl eq_refl eq_refl).
Defined.

End coercer.

(** ** The variable binder *)

Section variables.
Import scenarios.

Lemma flat_map_nil_inv {A B} (f : A → list B) l x :
  flat_map f l = [] → x ∈ l → f x = [].
Proof.
  induction l as [|y l IH]; simpl; intros Hnil Hx; [by apply elem_of_nil in Hx|].
  apply app_eq_nil in Hnil as [Hy Hl].
  apply elem_of_cons in Hx as [->|Hx]; auto.
Qed.

(** An input object that the validator accepts has only fields that the
    validator accepts. *)
Lemma isValidInputValue_field `{Host} name fields valueMap fieldName field :
  (isValidInputValue (VMap valueMap) (InputObject name fields)).1 = true →
  fields !! fieldName = Some field →
  (isValidInputValue (mapIndex valueMap fieldName) (Field_Type field)).1 = true.
Proof.
  rewrite !isValidInputValue_ok, isValidInputValue_InputObject.
  intros [_ Hdefined]%app_eq_nil Hfield.
  apply (flat_map_nil_inv _ _ fieldName) in Hdefined.
  - cbv beta in Hdefined. rewrite Hfield in Hdefined.
    by apply map_eq_nil in Hdefined.
  - apply elem_of_Strings, elem_of_keys. by exists field.
Qed.

(** C3: when the declared type resolves to an input type, the input fails
    validation and the input is nullish, [getVariableValue] returns the error
    whose message is [Variable "$<name>" of required type "<printed type>"
    was not provided.]; binding [$v: String!] with no input for [v] fails
    with [Variable "$v" of required type "String!" was not provided.] *)
Theorem getVariableValue_not_provided :
  (∀ (H : Host) schema definitionAST name input ttype,
     ast.VariableDefinition_Variable definitionAST = Some (Some name) →
     typeFromAST schema (ast.VariableDefinition_Type definitionAST)
       = Return (Some ttype, None) →
     IsInputType ttype = true →
     (isValidInputValue input ttype).1 = false →
     isNullish input = true →
     getVariableValue schema definitionAST input =
       Return (VString "", Some (gqlerrors.NewError
         ("Variable " +:+ quoted ("$" +:+ name) +:+ " of required type "
            +:+ quoted (printer.Print (ast.VariableDefinition_Type definitionAST))
            +:+ " was not provided.")
         [definitionAST]))) ∧
  getVariableValues (H := host) schema
    [Some (variable "v" (ast.NonNull (ast.Named (Some "String"))))] ∅ =
    Return (∅, Some (gqlerrors.NewError
      ("Variable " +:+ quoted "$v" +:+ " of required type " +:+ quoted "String!"
         +:+ " was not provided.")
      [variable "v" (ast.NonNull (ast.Named (Some "String")))])).
Proof.
  split; [|by vm_compute].
  intros H schema definitionAST name input ttype Hname Htype Hin Hvalid Hnull.
  unfold getVariableValue. rewrite Htype. simpl. rewrite Hin.
  destruct (isValidInputValue input ttype) as [isValid messages].
  simpl in Hvalid. subst isValid. rewrite Hnull.
  unfold variableNameValue. by rewrite Hname.
Qed.

Lemma getVariableValue_not_provided_witness :
  let definitionAST := variable "v" (ast.NonNull (ast.Named (Some "String"))) in
  ast.VariableDefinition_Variable definitionAST = Some (Some "v") ∧
  typeFromAST schema (ast.VariableDefinition_Type definitionAST)
    = Return (Some (NonNull String_), None) ∧
  IsInputType (NonNull String_) = true ∧
  (isValidInputValue (H := host) VNil (NonNull String_)).1 = false ∧
  isNullish VNil = true ∧
  getVariableValue (H := host) schema definitionAST VNil =
    Return (VString "", Some (gqlerrors.NewError
      ("Variable " +:+ quoted "$v" +:+ " of required type " +:+ quoted "String!"
         +:+ " was not provided.")
      [definitionAST])).
Proof.
  intros definitionAST. repeat (split; [reflexivity|]).
  exact (proj1 getVariableValue_not_provided host schema definitionAST "v" VNil
           (NonNull String_) eq_refl eq_refl eq_refl eq_refl eq_refl).
Defined.

(** What [coerceValue] puts under the name of a field of an input object. *)
Lemma coerceValue_field_lookup name (fields : gmap string InputObjectField_)
    valueMap fieldName field :
  fields !! fieldName = Some field →
  ∃ obj,
    coerceValue (InputObject name fields) (VMap valueMap) = VMap obj ∧
    obj !! fieldName =
      if isNullish (fieldFinalValue valueMap fieldName field) then None
      else Some (fieldFinalValue valueMap fieldName field).
Proof.
  intros Hfield. eexists. split; [by apply coerceValue_InputObject|].
  by rewrite lookup_rangeInsert, Hfield.
Qed.

(** A type that is an input object under non-null markers is an input type,
    and is coerced and, on a value that is not nullish, validated as the input
    object is. *)
Lemma stripNonNull_InputObject `{Host} ttype name fields v :
  stripNonNull ttype = InputObject name fields →
  IsInputType ttype = true ∧
  coerceValue ttype v = coerceValue (InputObject name fields) v ∧
  (isNullish v = false →
   isValidInputValue v ttype = isValidInputValue v (InputObject name fields)).
Proof.
  intros Hstrip.
  induction ttype as [| | | | | | |ofType IH]; try discriminate.
  - by injection Hstrip as <- <-.
  - destruct (IH Hstrip) as (Hin & Hcoerce & Hvalid).
    split_and!; [done|done|]. intros Hv. rewrite <-(Hvalid Hv). simpl.
    by rewrite Hv.
Qed.

(** C5, as the specification states it, fails on an input that the
    validator rejects: for [Complex] and [{"a": 1}] the field [a] has an
    input that is not nullish, yet [coerceValue] puts the default ["foo"]
    under [a], not the coercion of [1], which is nil; and the variable binder
    binds nothing and returns an error. *)
Lemma coerceValue_default_for_rejected_input :
  let input := VMap (<["a" := VInt 1]> ∅) in
  isNullish (VInt 1) = false ∧
  coerceValue String_ (VInt 1) = VNil ∧
  coerceValue Complex input = VMap (<["a" := VString "foo"]> ∅) ∧
  ∃ e, getVariableValue (H := host) schema
         (variable "v" (ast.Named (Some "Complex"))) input
       = Return (VString "", Some e).
Proof.
  split; [apply isNullish_VInt|]. split; [done|]. split; [by vm_compute|].
  eexists. by vm_compute.
Qed.

(** C5 (amended): under an input-object type [coerceValue] gives a field
    with a non-nullish default that default when the map has no entry for
    the field, when the entry is nullish and when the coercion of the entry
    is nullish, and the coercion of the entry otherwise, as for every entry
    that is not nullish and that the validator accepts for the input type of
    the field; so when a variable whose declared type is an input object,
    with or without non-null markers, is bound to a map without an error,
    such a field holds its default for a missing or nullish entry and the
    coercion of the entry otherwise; binding [$v: Complex] to [{}] gives
    [{a: "foo"}], without [b]. *)
Theorem default_layering :
  (∀ (H : Host) name (fields : gmap string InputObjectField_) valueMap
     fieldName field,
     fields !! fieldName = Some field →
     isNullish (Field_DefaultValue field) = false →
     ∃ obj,
       coerceValue (InputObject name fields) (VMap valueMap) = VMap obj ∧
       (valueMap !! fieldName = None →
        obj !! fieldName = Some (Field_DefaultValue field)) ∧
       (∀ v, valueMap !! fieldName = Some v →
          (isNullish v = true →
           obj !! fieldName = Some (Field_DefaultValue field)) ∧
          (isNullish (coerceValue (Field_Type field) v) = true →
           obj !! fieldName = Some (Field_DefaultValue field)) ∧
          (isNullish (coerceValue (Field_Type field) v) = false →
           obj !! fieldName = Some (coerceValue (Field_Type field) v)) ∧
          (isNullish v = false →
           IsInputType (Field_Type field) = true →
           (isValidInputValue v (Field_Type field)).1 = true →
           obj !! fieldName = Some (coerceValue (Field_Type field) v)))) ∧
  (∀ (H : Host) schema definitionAST ttype name fields valueMap fieldName
     field bound,
     typeFromAST schema (ast.VariableDefinition_Type definitionAST)
       = Return (Some ttype, None) →
     stripNonNull ttype = InputObject name fields →
     fields !! fieldName = Some field →
     IsInputType (Field_Type field) = true →
     isNullish (Field_DefaultValue field) = false →
     getVariableValue schema definitionAST (VMap valueMap)
       = Return (bound, None) →
     ∃ obj,
       bound = VMap obj ∧
       obj !! fieldName = Some
         match valueMap !! fieldName with
         | None => Field_DefaultValue field
         | Some v =>
           if isNullish v then Field_DefaultValue field
           else coerceValue (Field_Type field) v
         end) ∧
  getVariableValues (H := host) schema
    [Some (variable "v" (ast.Named (Some "Complex")))] (<["v" := VMap ∅]> ∅) =
    Return (<["v" := VMap (<["a" := VString "foo"]> ∅)]> ∅, None).
Proof.
  assert (Hcoerce : ∀ (H : Host) name (fields : gmap string InputObjectField_)
            valueMap fieldName field,
    fields !! fieldName = Some field →
    isNullish (Field_DefaultValue field) = false →
    ∃ obj,
      coerceValue (InputObject name fields) (VMap valueMap) = VMap obj ∧
      (valueMap !! fieldName = None →
       obj !! fieldName = Some (Field_DefaultValue field)) ∧
      (∀ v, valueMap !! fieldName = Some v →
         (isNullish v = true →
          obj !! fieldName = Some (Field_DefaultValue field)) ∧
         (isNullish (coerceValue (Field_Type field) v) = true →
          obj !! fieldName = Some (Field_DefaultValue field)) ∧
         (isNullish (coerceValue (Field_Type field) v) = false →
          obj !! fieldName = Some (coerceValue (Field_Type field) v)) ∧
         (isNullish v = false →
          IsInputType (Field_Type field) = true →
          (isValidInputValue v (Field_Type field)).1 = true →
          obj !! fieldName = Some (coerceValue (Field_Type field) v)))).
  { intros H name fields valueMap fieldName field Hfield Hdefault.
    destruct (coerceValue_field_lookup name fields valueMap fieldName field
                Hfield) as (obj & Hobj & Hlookup).
    exists obj. split; [done|]. rewrite Hlookup.
    unfold fieldFinalValue, mapIndex. split.
    - intros ->. simpl. rewrite coerceValue_nullish by done. simpl.
      by rewrite Hdefault.
    - intros v ->. simpl.
      assert (Hnull : isNullish (coerceValue (Field_Type field) v) = true →
                (if isNullish (if isNullish (coerceValue (Field_Type field) v)
                               then Field_DefaultValue field
                               else coerceValue (Field_Type field) v)
                 then None
                 else Some (if isNullish (coerceValue (Field_Type field) v)
                            then Field_DefaultValue field
                            else coerceValue (Field_Type field) v))
                = Some (Field_DefaultValue field)).
      { intros ->. by rewrite Hdefault. }
      assert (Hkept : isNullish (coerceValue (Field_Type field) v) = false →
                (if isNullish (if isNullish (coerceValue (Field_Type field) v)
                               then Field_DefaultValue field
                               else coerceValue (Field_Type field) v)
                 then None
                 else Some (if isNullish (coerceValue (Field_Type field) v)
                            then Field_DefaultValue field
                            else coerceValue (Field_Type field) v))
                = Some (coerceValue (Field_Type field) v)).
      { intros Hc. by rewrite !Hc. }
      split_and!; [|done|done|].
      + intros Hv. apply Hnull. by rewrite coerceValue_nullish.
      + intros Hv Hin Hvalid. apply Hkept.
        by apply coerceValue_valid_not_nullish. }
  split; [exact Hcoerce|]. split; [|by vm_compute].
  intros H schema definitionAST ttype name fields valueMap fieldName field bound
    Htype Hstrip Hfield Hin Hdefault Hbound.
  destruct (stripNonNull_InputObject ttype name fields (VMap valueMap) Hstrip)
    as (Hinput & Hsame & Hvalidsame).
  specialize (Hvalidsame eq_refl).
  unfold getVariableValue in Hbound. rewrite Htype in Hbound.
  cbn [run_bind] in Hbound. rewrite Hinput, Hvalidsame in Hbound.
  destruct (isValidInputValue (VMap valueMap) (InputObject name fields))
    as [isValid messages] eqn:Hvalid.
  destruct isValid; cycle 1.
  { rewrite isNullish_VMap in Hbound.
    by destruct (variableNameValue definitionAST). }
  rewrite isNullish_VMap, Hsame in Hbound. injection Hbound as <-.
  destruct (Hcoerce H name fields valueMap fieldName field Hfield Hdefault)
    as (obj & Hobj & Habsent & Hpresent).
  exists obj. split; [done|].
  destruct (valueMap !! fieldName) as [v|] eqn:Hv; [|by apply Habsent].
  destruct (Hpresent v eq_refl) as (Hnullish & _ & _ & Hvalidv).
  destruct (isNullish v) eqn:Hnull; [by apply Hnullish|].
  apply Hvalidv; [done..|].
  pose proof (isValidInputValue_field name fields valueMap fieldName field)
    as Hfieldvalid.
  rewrite Hvalid in Hfieldvalid. specialize (Hfieldvalid eq_refl Hfield).
  unfold mapIndex in Hfieldvalid. by rewrite Hv in Hfieldvalid.
Qed.

Lemma default_layering_witness :
  let definitionAST := variable "v" (ast.NonNull (ast.Named (Some "Complex"))) in
  let field := InputObjectField String_ (VString "foo") in
  let valueMap : gmap string value := <["a" := VString "x"]> ∅ in
  typeFromAST schema (ast.VariableDefinition_Type definitionAST)
    = Return (Some (NonNull Complex), None) ∧
  stripNonNull (NonNull Complex) = InputObject "Complex" ComplexFields ∧
  ComplexFields !! "a" = Some field ∧
  IsInputType (Field_Type field) = true ∧
  isNullish (Field_DefaultValue field) = false ∧
  getVariableValue (H := host) schema definitionAST (VMap valueMap)
    = Return (VMap (<["a" := VString "x"]> ∅), None) ∧
  ∃ obj,
    VMap (<["a" := VString "x"]> ∅) = VMap obj ∧
    obj !! "a" = Some (VString "x").
Proof.
  intros definitionAST field valueMap. do 6 (split; [reflexivity|]).
  exact (proj1 (proj2 default_layering) host schema definitionAST
           (NonNull Complex) "Complex" ComplexFields valueMap "a" field
           (VMap (<["a" := VString "x"]> ∅))
           eq_refl eq_refl eq_refl eq_refl eq_refl eq_refl).
Defined.

(** Every key of the map that the loop returns was in the map it started
    with or is a declared name. *)
Lemma bindVariables_keys `{Host} schema definitionASTs inputs values result err :
  bindVariables schema definitionASTs inputs values = Return (result, err) →
  ∀ name, is_Some (result !! name) →
    is_Some (values !! name) ∨ name ∈ declaredNames definitionASTs.
Proof.
  revert values.
  induction definitionASTs as [|[definitionAST|] rest IH]; intros values Hbind name Hname.
  - injection Hbind as <- _. by left.
  - simpl in Hbind. unfold declaredNames. simpl.
    destruct (ast.VariableDefinition_Variable definitionAST) as [[varName|]|];
      simpl; [|by apply (IH values)..].
    destruct (getVariableValue _ _ _) as [[varValue [e|]]|]; simpl in Hbind;
      [| |done].
    + injection Hbind as <- _. by left.
    + destruct (IH _ Hbind name Hname) as [Hin|Hin].
      * apply lookup_insert_is_Some in Hin as [->|[_ Hin]];
          [right; apply elem_of_cons; by left|by left].
      * right. apply elem_of_cons. by right.
  - by apply (IH values).
Qed.

(** An input under a name that no definition declares is never read. *)
Lemma bindVariables_undeclared_input `{Host} schema definitionASTs inputs values
    name v :
  name ∉ declaredNames definitionASTs →
  bindVariables schema definitionASTs (<[name := v]> inputs) values =
    bindVariables schema definitionASTs inputs values.
Proof.
  revert values.
  induction definitionASTs as [|[definitionAST|] rest IH]; intros values Hname;
    [done| |by apply IH].
  unfold declaredNames in Hname. simpl in *.
  destruct (ast.VariableDefinition_Variable definitionAST) as [[varName|]|];
    simpl in *; [|by apply IH..].
  apply not_elem_of_cons in Hname as [Hne Hname].
  unfold mapIndex. rewrite lookup_insert_ne by done.
  destruct (getVariableValue _ _ _) as [[varValue [e|]]|]; simpl; [done| |done].
  by apply IH.
Qed.

(** C8: every key of the map that [getVariableValues] returns, with or
    without an error, is the name of a declared variable, and an input under
    a name that no definition declares changes nothing of what is returned:
    neither the map nor the error. *)
Theorem getVariableValues_declared_keys :
  ∀ (H : Host) schema definitionASTs inputs,
    (∀ values err name,
       getVariableValues schema definitionASTs inputs = Return (values, err) →
       is_Some (values !! name) →
       name ∈ declaredNames definitionASTs) ∧
    (∀ name v,
       name ∉ declaredNames definitionASTs →
       getVariableValues schema definitionASTs (<[name := v]> inputs) =
         getVariableValues schema definitionASTs inputs).
Proof.
  intros H schema definitionASTs inputs. split.
  - intros values err name Hbind Hname.
    destruct (bindVariables_keys _ _ _ _ _ _ Hbind name Hname) as [Hin|Hin];
      [|done].
    rewrite lookup_empty in Hin. by destruct Hin.
  - intros name v Hname. by apply bindVariables_undeclared_input.
Qed.

Lemma getVariableValues_declared_keys_witness :
  let definitionASTs := [Some (variable "v" (ast.Named (Some "Complex")))] in
  let inputs : gmap string value := <["v" := VMap ∅]> ∅ in
  let values : gmap string value := <["v" := VMap (<["a" := VString "foo"]> ∅)]> ∅ in
  ((getVariableValues (H := host) schema definitionASTs inputs
      = Return (values, None)) ∧
   is_Some (values !! "v") ∧
   "v" ∈ declaredNames definitionASTs) ∧
  (("w" ∉ declaredNames definitionASTs) ∧
   getVariableValues (H := host) schema definitionASTs
     (<["w" := VBool true]> inputs) =
     getVariableValues (H := host) schema definitionASTs inputs).
Proof.
  intros definitionASTs inputs values.
  assert (Hw : "w" ∉ declaredNames definitionASTs).
  { intros Hin. apply list_elem_of_singleton in Hin. discriminate. }
  assert (Hv : is_Some (values !! "v")) by (eexists; reflexivity).
  split.
  - split; [reflexivity|]. split; [exact Hv|].
    exact (proj1 (getVariableValues_declared_keys host schema definitionASTs
                    inputs) values None "v" eq_refl Hv).
  - split; [exact Hw|].
    exact (proj2 (getVariableValues_declared_keys host schema definitionASTs
                    inputs) "w" (VBool true) Hw).
Defined.

End variables.

(** ** The argument binder *)

Section arguments.
Import scenarios.

Lemma bindArgument_other argASTMap variableValues argDefs results name :
  name ∉ PrivateName <$> argDefs →
  foldl (bindArgument argASTMap variableValues) results argDefs !! name
    = results !! name.
Proof.
  revert results. induction argDefs as [|argDef rest IH]; intros results Hname;
    [done|].
  rewrite fmap_cons in Hname. apply not_elem_of_cons in Hname as [Hne Hname].
  simpl. rewrite IH by done. unfold bindArgument.
  destruct (isNullish _); [done|]. by rewrite lookup_insert_ne.
Qed.

Lemma bindArgument_lookup argASTMap variableValues argDefs results argDef :
  NoDup (PrivateName <$> argDefs) →
  argDef ∈ argDefs →
  foldl (bindArgument argASTMap variableValues) results argDefs
      !! PrivateName argDef =
    if isNullish (argumentValue argASTMap variableValues argDef)
    then results !! PrivateName argDef
    else Some (argumentValue argASTMap variableValues argDef).
Proof.
  revert results. induction argDefs as [|first rest IH]; intros results Hdup Hin;
    [by apply elem_of_nil in Hin|].
  rewrite fmap_cons in Hdup. apply NoDup_cons in Hdup as [Hfirst Hdup].
  simpl. apply elem_of_cons in Hin as [->|Hin].
  - rewrite bindArgument_other by done. unfold bindArgument.
    destruct (isNullish _); [done|]. by rewrite lookup_insert_eq.
  - rewrite IH by done. destruct (isNullish (argumentValue _ _ argDef)); [|done].
    unfold bindArgument.
    destruct (isNullish _); [done|]. rewrite lookup_insert_ne; [done|].
    intros Heq. apply Hfirst. rewrite Heq. by apply list_elem_of_fmap_2.
Qed.

(** C9: [getArgumentValues] returns a map on every input; its keys are
    names of argument definitions, and, the names of the definitions being
    distinct, the key of a definition is present iff the evaluated AST value
    is non-nullish, or it is nullish and the default of the definition is
    non-nullish, and then holds that non-nullish value. *)
Theorem getArgumentValues_present :
  ∀ argDefs argASTs variableValues,
    (∀ name,
       is_Some (getArgumentValues argDefs argASTs variableValues !! name) →
       name ∈ PrivateName <$> argDefs) ∧
    (∀ argDef,
       NoDup (PrivateName <$> argDefs) →
       argDef ∈ argDefs →
       let supplied :=
         valueFromAST
           (argAST ← argASTMapOf argASTs !! PrivateName argDef;
            ast.Argument_Value argAST)
           (Argument_Type argDef) variableValues in
       getArgumentValues argDefs argASTs variableValues !! PrivateName argDef =
         if isNullish supplied then
           if isNullish (Argument_DefaultValue argDef) then None
           else Some (Argument_DefaultValue argDef)
         else Some supplied).
Proof.
  intros argDefs argASTs variableValues. split.
  - intros name Hname. unfold getArgumentValues in Hname.
    destruct (decide (name ∈ PrivateName <$> argDefs)) as [|Hnot]; [done|].
    rewrite bindArgument_other, lookup_empty in Hname by done.
    by destruct Hname.
  - intros argDef Hdup Hin supplied. unfold getArgumentValues.
    rewrite bindArgument_lookup, lookup_empty by done.
    unfold argumentValue. fold supplied.
    assert (valueFromAST
              match argASTMapOf argASTs !! PrivateName argDef with
              | Some tmpValue => ast.Argument_Value tmpValue
              | None => None
              end (Argument_Type argDef) variableValues = supplied) as ->.
    { unfold supplied. by destruct (argASTMapOf argASTs !! PrivateName argDef). }
    destruct (isNullish supplied) eqn:Hsupplied; [done|]. by rewrite Hsupplied.
Qed.

Lemma getArgumentValues_present_witness :
  let argDef := {| PrivateName := "x"; Argument_Type := String_;
                   Argument_DefaultValue := VNil |} in
  let argAST := {| ast.Argument_Name := Some "x";
                   ast.Argument_Value := Some (ast.Variable_ (Some "v")) |} in
  let variableValues : option (gmap string value) :=
    Some (<["v" := VString "hello"]> ∅) in
  NoDup (PrivateName <$> [argDef]) ∧
  argDef ∈ [argDef] ∧
  getArgumentValues [argDef] [argAST] variableValues !! "x"
    = Some (VString "hello").
Proof.
  intros argDef argAST variableValues.
  assert (Hdup : NoDup (PrivateName <$> [argDef])).
  { apply NoDup_singleton. }
  assert (Hin : argDef ∈ [argDef]) by apply list_elem_of_here.
  split; [exact Hdup|]. split; [exact Hin|].
  exact (proj2 (getArgumentValues_present [argDef] [argAST] variableValues)
           argDef Hdup Hin).
Defined.

End arguments.

(** * Further properties *)

(** ** Induction on types through the fields of input objects *)

Section type_induction.

Lemma type_size_field name (fields : gmap string InputObjectField_)
    fieldName field :
  fields !! fieldName = Some field →
  type_size (Field_Type field) < type_size (InputObject name fields).
Proof.
  intros Hfield. simpl.
  rewrite (map_fold_delete_L _ _ fieldName (type_size (Field_Type field))).
  - lia.
  - intros. lia.
  - by rewrite lookup_fmap, Hfield.
Qed.

Lemma type_nested_ind (P : type → Prop) :
  (∀ name pv pl, P (Scalar name pv pl)) →
  (∀ name pv pl, P (Enum name pv pl)) →
  (∀ name fields,
     (∀ fieldName field,
        fields !! fieldName = Some field → P (Field_Type field)) →
     P (InputObject name fields)) →
  (∀ name, P (Object name)) →
  (∀ name, P (Interface name)) →
  (∀ name, P (Union name)) →
  (∀ ofType, P ofType → P (List ofType)) →
  (∀ ofType, P ofType → P (NonNull ofType)) →
  ∀ ttype, P ttype.
Proof.
  intros HS HE HI HO HIf HU HL HN ttype.
  remember (type_size ttype) as n eqn:Hn. revert ttype Hn.
  induction n as [n IH] using lt_wf_ind. intros ttype ->.
  destruct ttype; auto.
  - apply HI. intros fieldName field Hfield.
    eapply IH; [|done]. by eapply type_size_field.
  - apply HL. eapply IH; [|done]. simpl. lia.
  - apply HN. eapply IH; [|done]. simpl. lia.
Qed.

Lemma rangeInsert_ext {A} (g1 g2 : string → A → value) (m : gmap string A) :
  (∀ k x, m !! k = Some x → g1 k x = g2 k x) →
  rangeInsert g1 m = rangeInsert g2 m.
Proof.
  intros Hext. apply map_eq. intros k. rewrite !lookup_rangeInsert.
  destruct (m !! k) as [x|] eqn:Hk; [|done]. simpl. by rewrite (Hext k x).
Qed.

End type_induction.

(** ** The type resolver *)

Section resolver.
Import scenarios.

(** X1: [typeFromAST] is decided by the node the reference ends in. A named
    node gives the schema's type of that name inside the wrappers of the
    reference, or the absent type when the schema has none, and no error; a
    nil node is a nil dereference; a node of another kind gives the error
    [Must be a named type.] unless it reports the kind [Named], and then
    neither a type nor an error. *)
Theorem typeFromAST_innermost :
  ∀ schema inputTypeAST,
    typeFromAST schema inputTypeAST =
      match innermost inputTypeAST with
      | LeafNamed name =>
        Return (wrapLike inputTypeAST <$> Schema_Type schema (default "" name),
                None)
      | LeafNil => Panic
      | LeafOther kind =>
        Return (None,
                if String.eqb kind "Named" then None
                else Some (gqlerrors.NewFormattedError "Must be a named type."))
      end.
Proof.
  intros schema inputTypeAST.
  induction inputTypeAST as [name|inner IH|inner IH| |kind]; simpl; try done.
  - by destruct (Schema_Type schema _).
  - rewrite IH. destruct (innermost inner) as [name| |kind]; simpl; try done.
    + by destruct (Schema_Type schema _).
    + by destruct (String.eqb kind "Named").
  - rewrite IH. destruct (innermost inner) as [name| |kind]; simpl; try done.
    + by destruct (Schema_Type schema _).
    + by destruct (String.eqb kind "Named").
Qed.

End resolver.

(** ** More on the input validator *)

Section validator_more.
Import scenarios.

Lemma flat_map_nil_iff {A B} (f : A → list B) l :
  flat_map f l = [] ↔ ∀ x, x ∈ l → f x = [].
Proof.
  split; [intros Hnil x Hx; by eapply flat_map_nil_inv|].
  induction l as [|y l IH]; simpl; intros Hall; [done|].
  rewrite (Hall y), IH; [done| |by left].
  intros x Hx. apply Hall. by right.
Qed.

(** What the validator answers for a nullish value. *)
Lemma isValidInputValue_nullish `{Host} v ttype :
  isNullish v = true →
  isValidInputValue v ttype =
    match ttype with
    | NonNull ofType =>
      (false,
       [if negb (String.eqb (Name ofType) "")
        then "Expected " +:+ quoted (Name ofType +:+ "!") +:+ ", found null."
        else "Expected non-null value, found null."])
    | _ => (true, [])
    end.
Proof.
  intros Hv. destruct ttype; simpl; rewrite Hv; try done.
  by destruct (negb _).
Qed.

(** X2: a nullish value is valid for every type that is not a [NonNull]
    and invalid, with exactly one message, for every [NonNull] type,
    whatever the type inside. *)
Theorem isValidInputValue_nullish_iff_nullable :
  ∀ (H : Host) v ttype,
    isNullish v = true →
    ((isValidInputValue v ttype).1 = true ↔ ∀ ofType, ttype ≠ NonNull ofType) ∧
    ((isValidInputValue v ttype).1 = false →
     length (isValidInputValue v ttype).2 = 1).
Proof.
  intros H v ttype Hv. rewrite isValidInputValue_nullish by done.
  destruct ttype; simpl; split; try done; try (by split).
  split; [done|]. intros Hne. by edestruct Hne.
Qed.

Lemma isValidInputValue_nullish_iff_nullable_witness :
  isNullish VNil = true ∧
  (((isValidInputValue (H := host) VNil (List String_)).1 = true
    ↔ ∀ ofType, List String_ ≠ NonNull ofType) ∧
   ((isValidInputValue (H := host) VNil (List String_)).1 = false →
    length (isValidInputValue (H := host) VNil (List String_)).2 = 1)).
Proof.
  split; [reflexivity|].
  exact (isValidInputValue_nullish_iff_nullable host VNil (List String_) eq_refl).
Defined.

Lemma isValidInputValue_List_ok `{Host} itemType elems :
  (isValidInputValue (VSlice elems) (List itemType)).1 = true ↔
  ∀ x, x ∈ elems → (isValidInputValue x itemType).1 = true.
Proof.
  rewrite isValidInputValue_ok, isValidInputValue_List_messages, flat_map_nil_iff.
  apply forall_proper. intros x. apply forall_proper. intros _.
  rewrite isValidInputValue_ok.
  by destruct (isValidInputValue x itemType).2.
Qed.

(** X3: a sequence is valid for a list type exactly when each of its
    elements is valid for the item type. *)
Theorem isValidInputValue_List_valid_iff :
  ∀ (H : Host) itemType elems,
    (isValidInputValue (VSlice elems) (List itemType)).1 = true ↔
    ∀ x, x ∈ elems → (isValidInputValue x itemType).1 = true.
Proof. intros H itemType elems. apply isValidInputValue_List_ok. Qed.

(** X4: a map is valid for an input-object type exactly when each of its
    keys is the name of a field and, for every field, what the map holds
    under the name of the field, nil when it holds nothing, is valid for the
    type of the field. *)
Theorem isValidInputValue_InputObject_valid_iff :
  ∀ (H : Host) name (fields : gmap string InputObjectField_) valueMap,
    (isValidInputValue (VMap valueMap) (InputObject name fields)).1 = true ↔
    (∀ fieldName, is_Some (valueMap !! fieldName) → is_Some (fields !! fieldName)) ∧
    (∀ fieldName field,
       fields !! fieldName = Some field →
       (isValidInputValue (mapIndex valueMap fieldName) (Field_Type field)).1
         = true).
Proof.
  intros H name fields valueMap.
  rewrite isValidInputValue_ok, isValidInputValue_InputObject.
  rewrite app_nil, !flat_map_nil_iff. apply Morphisms_Prop.and_iff_morphism.
  - split.
    + intros Hall fieldName Hprovided.
      specialize (Hall fieldName). rewrite elem_of_Strings, elem_of_keys in Hall.
      specialize (Hall Hprovided). by destruct (fields !! fieldName).
    + intros Hall fieldName Hin. rewrite elem_of_Strings, elem_of_keys in Hin.
      by destruct (Hall fieldName Hin) as [field ->].
  - split.
    + intros Hall fieldName field Hfield.
      specialize (Hall fieldName). rewrite elem_of_Strings, elem_of_keys in Hall.
      rewrite Hfield in Hall. specialize (Hall (mk_is_Some _ _ eq_refl)).
      apply isValidInputValue_ok. by apply map_eq_nil in Hall.
    + intros Hall fieldName Hin. rewrite elem_of_Strings, elem_of_keys in Hin.
      destruct Hin as [field Hfield]. rewrite Hfield.
      apply (Hall _ _), isValidInputValue_ok in Hfield. by rewrite Hfield.
Qed.

(** X5: the validator follows a pointer to a sequence and the coercer does
    not: when a scalar's [ParseValue] rejects the pointer and accepts every
    element of the sequence, the pointer is valid for the list type and is
    coerced to the sequence that holds nil alone. *)
Theorem pointer_to_sequence_coerced_to_nil :
  ∀ (H : Host) name ParseValue ParseLiteral elems,
    isNullish (ParseValue (VPtr (Some (VSlice elems)))) = true →
    (∀ x, x ∈ elems →
       (isValidInputValue x (Scalar name ParseValue ParseLiteral)).1 = true) →
    (isValidInputValue (VPtr (Some (VSlice elems)))
       (List (Scalar name ParseValue ParseLiteral))).1 = true ∧
    coerceValue (List (Scalar name ParseValue ParseLiteral))
      (VPtr (Some (VSlice elems))) = VSlice [VNil].
Proof.
  intros H name ParseValue ParseLiteral elems Hptr Helems. split.
  - change (isValidInputValue (VPtr (Some (VSlice elems))) (List ?t))
      with (isValidInputValue (VSlice elems) (List t)).
    by apply isValidInputValue_List_ok.
  - simpl. by rewrite Hptr.
Qed.

Lemma pointer_to_sequence_coerced_to_nil_witness :
  let ParseValue := λ v, match v with VString s => VString s | _ => VNil end in
  let ptr := VPtr (Some (VSlice [VString "a"])) in
  isNullish (ParseValue ptr) = true ∧
  (∀ x, x ∈ [VString "a"] → (isValidInputValue (H := host) x String_).1 = true) ∧
  (isValidInputValue (H := host) ptr (List String_)).1 = true ∧
  coerceValue (List String_) ptr = VSlice [VNil].
Proof.
  intros ParseValue ptr.
  assert (Helems : ∀ x, x ∈ [VString "a"] →
            (isValidInputValue (H := host) x String_).1 = true).
  { intros x Hx. apply list_elem_of_singleton in Hx. by rewrite Hx. }
  split; [reflexivity|]. split; [exact Helems|].
  exact (pointer_to_sequence_coerced_to_nil host "String" ParseValue
           (λ node, match node with ast.StringValue s => VString s | _ => VNil end)
           [VString "a"] eq_refl Helems).
Defined.

End validator_more.

(** ** More on the coercer *)

Section coercer_more.
Import scenarios.

(** X6: [coerceValue] returns nil or a value that is not nullish: a NaN
    that a [ParseValue] returns never comes out. *)
Theorem coerceValue_nil_or_not_nullish :
  ∀ ttype v, coerceValue ttype v = VNil ∨ isNullish (coerceValue ttype v) = false.
Proof.
  intros ttype v. induction ttype as [n pv pl|n pv pl| | | | | |ofType IH];
    simpl; try done; destruct (isNullish v); try (by left).
  - destruct (isNullish (pv v)) eqn:Hpv; [by left|by right].
  - destruct (isNullish (pv v)) eqn:Hpv; [by left|by right].
  - by right.
  - right. by destruct v.
Qed.

(** X7: under an input-object type a value that is not nullish is coerced
    to a map whose keys are names of fields of the type and whose values are
    not nullish: entries of the input under other names are dropped. *)
Theorem coerceValue_InputObject_entries :
  ∀ name (fields : gmap string InputObjectField_) v,
    isNullish v = false →
    ∃ obj,
      coerceValue (InputObject name fields) v = VMap obj ∧
      ∀ fieldName x,
        obj !! fieldName = Some x →
        is_Some (fields !! fieldName) ∧ isNullish x = false.
Proof.
  intros name fields v Hv. eexists. split; [by apply coerceValue_InputObject|].
  intros fieldName x. rewrite lookup_rangeInsert.
  destruct (fields !! fieldName) as [field|]; [|done]. simpl.
  destruct (isNullish (fieldFinalValue _ _ _)) eqn:Hfinal; [done|].
  intros [= <-]. by split.
Qed.

Lemma coerceValue_InputObject_entries_witness :
  isNullish (VMap (<["zzz" := VBool true]> ∅)) = false ∧
  ∃ obj,
    coerceValue Complex (VMap (<["zzz" := VBool true]> ∅)) = VMap obj ∧
    ∀ fieldName x,
      obj !! fieldName = Some x →
      is_Some (ComplexFields !! fieldName) ∧ isNullish x = false.
Proof.
  split; [reflexivity|].
  exact (coerceValue_InputObject_entries "Complex" ComplexFields
           (VMap (<["zzz" := VBool true]> ∅)) eq_refl).
Defined.

(** X8: under an input-object type a value that is neither nullish nor a
    map is coerced as the empty map is: to the map of the non-nullish
    defaults of the fields. *)
Theorem coerceValue_InputObject_not_a_map :
  ∀ name (fields : gmap string InputObjectField_) v,
    isNullish v = false →
    (∀ valueMap, v ≠ VMap valueMap) →
    coerceValue (InputObject name fields) v
      = coerceValue (InputObject name fields) (VMap ∅) ∧
    ∃ obj,
      coerceValue (InputObject name fields) v = VMap obj ∧
      ∀ fieldName,
        obj !! fieldName =
          field ← fields !! fieldName;
          if isNullish (Field_DefaultValue field) then None
          else Some (Field_DefaultValue field).
Proof.
  intros name fields v Hv Hmap.
  rewrite !coerceValue_InputObject by done.
  assert (match v with VMap m => m | _ => ∅ end = ∅) as ->.
  { destruct v; try done. by edestruct Hmap. }
  split; [done|]. eexists. split; [done|].
  intros fieldName. rewrite lookup_rangeInsert.
  destruct (fields !! fieldName) as [field|]; [|done]. simpl.
  unfold fieldFinalValue, mapIndex. rewrite lookup_empty. simpl.
  by rewrite coerceValue_nullish.
Qed.

Lemma coerceValue_InputObject_not_a_map_witness :
  isNullish (VString "x") = false ∧
  (∀ valueMap, VString "x" ≠ VMap valueMap) ∧
  coerceValue Complex (VString "x") = VMap (<["a" := VString "foo"]> ∅).
Proof.
  split; [reflexivity|]. split; [discriminate|].
  destruct (coerceValue_InputObject_not_a_map "Complex" ComplexFields
              (VString "x") eq_refl (λ valueMap, ltac:(discriminate)))
    as [Heq _].
  exact (eq_trans Heq eq_refl).
Defined.

(** X9: the non-null markers on the wrappers of a type change nothing of
    what [coerceValue] and [valueFromAST] return. *)
Theorem stripNonNull_transparent :
  ∀ ttype,
    (∀ v, coerceValue ttype v = coerceValue (stripNonNull ttype) v) ∧
    (∀ valueAST variables,
       valueFromAST valueAST ttype variables
         = valueFromAST valueAST (stripNonNull ttype) variables).
Proof.
  intros ttype.
  induction ttype as [| | | | | |ofType [IHc IHv]|ofType [IHc IHv]];
    try done; split.
  - intros v. simpl. destruct (isNullish v); [done|].
    destruct v; simpl; rewrite ?IHc; try done.
    f_equal. apply map_ext. intros. apply IHc.
  - intros [[]|] variables; simpl; rewrite ?IHv; try done.
    f_equal. apply map_ext. intros. apply IHv.
  - intros v. simpl. rewrite IHc. by destruct (stripNonNull ofType).
  - intros [node|] variables; [|simpl; by destruct (stripNonNull ofType)].
    transitivity (valueFromAST (Some node) ofType variables); [|apply IHv].
    destruct node; simpl; try done. by destruct ofType.
Qed.

(** X10: a value that is not nullish is valid for a scalar or enum type
    exactly when its coercion under that type is not nil. *)
Theorem scalar_valid_iff_coerced :
  ∀ (H : Host) name ParseValue ParseLiteral v,
    isNullish v = false →
    ((isValidInputValue v (Scalar name ParseValue ParseLiteral)).1 = true
       ↔ coerceValue (Scalar name ParseValue ParseLiteral) v ≠ VNil) ∧
    ((isValidInputValue v (Enum name ParseValue ParseLiteral)).1 = true
       ↔ coerceValue (Enum name ParseValue ParseLiteral) v ≠ VNil).
Proof.
  intros H name ParseValue ParseLiteral v Hv. simpl. rewrite Hv.
  destruct (isNullish (ParseValue v)) eqn:Hpv; simpl; split; split; try done.
  all: intros _ Hnil; by rewrite Hnil in Hpv.
Qed.

Lemma scalar_valid_iff_coerced_witness :
  isNullish (VInt 1) = false ∧
  ((isValidInputValue (H := host) (VInt 1) String_).1 = true
     ↔ coerceValue String_ (VInt 1) ≠ VNil).
Proof.
  split; [apply isNullish_VInt|].
  exact (proj1 (scalar_valid_iff_coerced host "String" _ _ (VInt 1)
                  (isNullish_VInt 1))).
Defined.

End coercer_more.

(** ** The literal evaluator *)

Section evaluator.
Import scenarios.

(** X11: a nil variables map and an empty one give the same value, for
    every value node and every type. *)
Theorem valueFromAST_nil_variables :
  ∀ valueAST ttype,
    valueFromAST valueAST ttype None = valueFromAST valueAST ttype (Some ∅).
Proof.
  intros valueAST ttype. revert valueAST.
  induction ttype as [| |name fields IH| | | |ofType IH|ofType IH]
    using type_nested_ind;
    intros [node|]; try done; destruct node as [[n|]| | | | | | |];
    try done; simpl.
  all: try (by rewrite IH).
  - f_equal. rewrite !rangeInsert_fmap. apply rangeInsert_ext.
    intros k x Hk. simpl. destruct (fieldASTsOf Fields !! k); [|done].
    by eapply IH.
  - f_equal. apply map_ext. intros. apply IH.
Qed.

(** The lookup table of an object literal holds, under a name, the last
    field of the literal with that name. *)
Lemma fieldASTsOf_lookup fields name :
  fieldASTsOf fields !! name = last (fieldsNamed name fields).
Proof.
  unfold fieldASTsOf, fieldsNamed.
  induction fields as [|field fields IH] using rev_ind; [done|].
  rewrite foldl_app, omap_app. simpl.
  destruct field as [[[fieldName|] fieldValue]|]; simpl;
    rewrite ?app_nil_r; try done.
  destruct (decide (fieldName = name)) as [->|Hne]; simpl.
  - by rewrite lookup_insert_eq, last_snoc.
  - by rewrite lookup_insert_ne, app_nil_r.
Qed.

(** X12: under an input-object type an object literal evaluates to a map
    that holds, under the name of a field of the type, the evaluation of the
    last field of the literal with that name or, when the literal has none,
    the default of the field, unless that value is nullish; a field of the
    literal with a nullish value is left out even when the type gives the
    field a default, and fields of the literal under other names are
    dropped. *)
Theorem valueFromAST_ObjectValue_entries :
  ∀ literalFields name (fields : gmap string InputObjectField_) variables,
    ∃ obj,
      valueFromAST (Some (ast.ObjectValue literalFields))
        (InputObject name fields) variables = VMap obj ∧
      ∀ fieldName,
        obj !! fieldName =
          field ← fields !! fieldName;
          let v :=
            match last (fieldsNamed fieldName literalFields) with
            | Some objectField =>
              valueFromAST (ast.ObjectField_Value objectField)
                (Field_Type field) variables
            | None => Field_DefaultValue field
            end in
          if isNullish v then None else Some v.
Proof.
  intros literalFields name fields variables. eexists. split; [done|].
  intros fieldName. rewrite rangeInsert_fmap, lookup_rangeInsert.
  destruct (fields !! fieldName) as [field|]; [|done]. simpl.
  by rewrite fieldASTsOf_lookup.
Qed.

End evaluator.

(** ** More on the argument binder *)

Section arguments_more.
Import scenarios.

(** The lookup table of the argument nodes holds, under a name, the last
    argument with that name. *)
Lemma argASTMapOf_lookup argASTs name :
  argASTMapOf argASTs !! name = last (argumentsNamed name argASTs).
Proof.
  unfold argASTMapOf, argumentsNamed.
  induction argASTs as [|argAST argASTs IH] using rev_ind; [done|].
  rewrite foldl_app, omap_app. simpl.
  destruct (ast.Argument_Name argAST) as [argName|]; simpl;
    rewrite ?app_nil_r; try done.
  destruct (decide (argName = name)) as [->|Hne]; simpl.
  - by rewrite lookup_insert_eq, last_snoc.
  - by rewrite lookup_insert_ne, app_nil_r.
Qed.

Lemma foldl_bindArgument_ext argASTMap1 argASTMap2 variableValues argDefs results :
  (∀ argDef, argDef ∈ argDefs →
     argASTMap1 !! PrivateName argDef = argASTMap2 !! PrivateName argDef) →
  foldl (bindArgument argASTMap1 variableValues) results argDefs =
    foldl (bindArgument argASTMap2 variableValues) results argDefs.
Proof.
  revert results. induction argDefs as [|argDef argDefs IH]; intros results Hagree;
    [done|].
  simpl. rewrite IH by (intros; apply Hagree; by right).
  unfold bindArgument, argumentValue. rewrite (Hagree argDef) by by left. done.
Qed.

(** X13: of the argument nodes only the last one under the name of each
    definition counts: two lists of nodes that agree on it for every
    definition give the same map, so nodes without a name, nodes under a name
    that no definition has and all but the last node of a name are ignored. *)
Theorem getArgumentValues_last_argument :
  ∀ argDefs argASTs1 argASTs2 variableValues,
    (∀ argDef, argDef ∈ argDefs →
       last (argumentsNamed (PrivateName argDef) argASTs1)
         = last (argumentsNamed (PrivateName argDef) argASTs2)) →
    getArgumentValues argDefs argASTs1 variableValues
      = getArgumentValues argDefs argASTs2 variableValues.
Proof.
  intros argDefs argASTs1 argASTs2 variableValues Hagree.
  unfold getArgumentValues. apply foldl_bindArgument_ext.
  intros argDef Hin. rewrite !argASTMapOf_lookup. by apply Hagree.
Qed.

Lemma getArgumentValues_last_argument_witness :
  let argDef := {| PrivateName := "x"; Argument_Type := String_;
                   Argument_DefaultValue := VNil |} in
  let node name raw := {| ast.Argument_Name := name;
                          ast.Argument_Value := Some (ast.StringValue raw) |} in
  let argASTs1 :=
    [node (Some "x") "first"; node None "unnamed"; node (Some "y") "other";
     node (Some "x") "last"] in
  let argASTs2 := [node (Some "x") "last"] in
  (∀ argDef', argDef' ∈ [argDef] →
     last (argumentsNamed (PrivateName argDef') argASTs1)
       = last (argumentsNamed (PrivateName argDef') argASTs2)) ∧
  getArgumentValues [argDef] argASTs1 None
    = getArgumentValues [argDef] argASTs2 None.
Proof.
  intros argDef node argASTs1 argASTs2.
  assert (Hagree : ∀ argDef', argDef' ∈ [argDef] →
            last (argumentsNamed (PrivateName argDef') argASTs1)
              = last (argumentsNamed (PrivateName argDef') argASTs2)).
  { intros argDef' Hin. apply list_elem_of_singleton in Hin. by rewrite Hin. }
  split; [exact Hagree|].
  exact (getArgumentValues_last_argument [argDef] argASTs1 argASTs2 None Hagree).
Defined.

Lemma foldl_bindArgument_not_nullish argASTMap variableValues argDefs results :
  map_Forall (λ _ v, isNullish v = false) results →
  map_Forall (λ _ v, isNullish v = false)
    (foldl (bindArgument argASTMap variableValues) results argDefs).
Proof.
  revert results. induction argDefs as [|argDef argDefs IH]; intros results Hres;
    [done|].
  simpl. apply IH. unfold bindArgument.
  destruct (isNullish (argumentValue _ _ _)) eqn:Hv; [done|].
  by apply map_Forall_insert_2.
Qed.

(** X14: no value of the map that [getArgumentValues] returns is nullish:
    an argument that ends up nil or NaN has no entry. *)
Theorem getArgumentValues_not_nullish :
  ∀ argDefs argASTs variableValues,
    map_Forall (λ _ v, isNullish v = false)
      (getArgumentValues argDefs argASTs variableValues).
Proof.
  intros argDefs argASTs variableValues. unfold getArgumentValues.
  apply foldl_bindArgument_not_nullish, map_Forall_empty.
Qed.

End arguments_more.

(** ** More on the variable binder *)

Section variables_more.
Import scenarios.

(** X15: when the declared type resolves to no type or to a type that is
    no input type, [getVariableValue] returns, whatever the input, the error
    [Variable "$<name>" expected value of type "<printed type>" which cannot
    be used as an input type.] *)
Theorem getVariableValue_not_input_type :
  ∀ (H : Host) schema definitionAST name input ttype,
    ast.VariableDefinition_Variable definitionAST = Some (Some name) →
    typeFromAST schema (ast.VariableDefinition_Type definitionAST)
      = Return (ttype, None) →
    match ttype with Some t => IsInputType t | None => false end = false →
    getVariableValue schema definitionAST input =
      Return (VString "", Some (gqlerrors.NewError
        ("Variable " +:+ quoted ("$" +:+ name) +:+ " expected value of type "
           +:+ quoted (printer.Print (ast.VariableDefinition_Type definitionAST))
           +:+ " which cannot be used as an input type.")
        [definitionAST])).
Proof.
  intros H schema definitionAST name input ttype Hname Htype Hin.
  unfold getVariableValue. rewrite Htype. simpl.
  unfold variableNameValue. rewrite Hname.
  destruct ttype as [t|]; [|done]. by rewrite Hin.
Qed.

Lemma getVariableValue_not_input_type_witness :
  let definitionAST := variable "v" (ast.List (ast.Named (Some "Missing"))) in
  ast.VariableDefinition_Variable definitionAST = Some (Some "v") ∧
  typeFromAST schema (ast.VariableDefinition_Type definitionAST)
    = Return (None, None) ∧
  getVariableValue (H := host) schema definitionAST (VString "x") =
    Return (VString "", Some (gqlerrors.NewError
      ("Variable " +:+ quoted "$v" +:+ " expected value of type "
         +:+ quoted "[Missing]" +:+ " which cannot be used as an input type.")
      [definitionAST])).
Proof.
  intros definitionAST. split; [reflexivity|]. split; [reflexivity|].
  exact (getVariableValue_not_input_type host schema definitionAST "v"
           (VString "x") None eq_refl eq_refl eq_refl).
Defined.

(** X16: when the declared type resolves to an input type,
    [getVariableValue] returns a value without an error exactly when the
    validator accepts the input. *)
Theorem getVariableValue_succeeds_iff_valid :
  ∀ (H : Host) schema definitionAST input ttype,
    typeFromAST schema (ast.VariableDefinition_Type definitionAST)
      = Return (Some ttype, None) →
    IsInputType ttype = true →
    (∃ bound, getVariableValue schema definitionAST input = Return (bound, None))
    ↔ (isValidInputValue input ttype).1 = true.
Proof.
  intros H schema definitionAST input ttype Htype Hin.
  unfold getVariableValue. rewrite Htype. simpl. rewrite Hin.
  destruct (isValidInputValue input ttype) as [[] messages]; simpl.
  - split; [done|]. intros _.
    destruct (isNullish input);
      destruct (ast.VariableDefinition_DefaultValue definitionAST); eauto.
  - split; [|done]. intros [bound Hbound].
    destruct (isNullish input), (variableNameValue definitionAST); done.
Qed.

Lemma getVariableValue_succeeds_iff_valid_witness :
  let definitionAST := variable "v" (ast.Named (Some "Complex")) in
  typeFromAST schema (ast.VariableDefinition_Type definitionAST)
    = Return (Some Complex, None) ∧
  IsInputType Complex = true ∧
  ((∃ bound, getVariableValue (H := host) schema definitionAST (VString "x")
               = Return (bound, None))
   ↔ (isValidInputValue (H := host) (VString "x") Complex).1 = true).
Proof.
  intros definitionAST. split; [reflexivity|]. split; [reflexivity|].
  exact (getVariableValue_succeeds_iff_valid host schema definitionAST
           (VString "x") Complex eq_refl eq_refl).
Defined.

(** X17: when the input is not nullish and the validator rejects it, the
    error message of [getVariableValue] is [Variable "$<name>" got invalid
    value <JSON of the input>.] followed by a line break and the messages of
    the validator, one per line: there always is a message. *)
Theorem getVariableValue_invalid_message :
  ∀ (H : Host) schema definitionAST name input ttype,
    ast.VariableDefinition_Variable definitionAST = Some (Some name) →
    typeFromAST schema (ast.VariableDefinition_Type definitionAST)
      = Return (Some ttype, None) →
    IsInputType ttype = true →
    (isValidInputValue input ttype).1 = false →
    isNullish input = false →
    (isValidInputValue input ttype).2 ≠ [] ∧
    getVariableValue schema definitionAST input =
      Return (VString "", Some (gqlerrors.NewError
        ("Variable " +:+ quoted ("$" +:+ name) +:+ " got invalid value "
           +:+ default "" (Marshal input) +:+ "." +:+ newline
           +:+ Join (isValidInputValue input ttype).2 newline)
        [definitionAST])).
Proof.
  intros H schema definitionAST name input ttype Hname Htype Hin Hvalid Hnull.
  assert (Hmessages : (isValidInputValue input ttype).2 ≠ []).
  { intros Hnil. apply isValidInputValue_ok in Hnil. congruence. }
  split; [done|].
  unfold getVariableValue. rewrite Htype. simpl. rewrite Hin.
  destruct (isValidInputValue input ttype) as [isValid messages].
  simpl in *. subst isValid. rewrite Hnull.
  unfold variableNameValue. rewrite Hname. simpl.
  rewrite bool_decide_true; [done|]. destruct messages; [done|simpl; lia].
Qed.

Lemma getVariableValue_invalid_message_witness :
  let definitionAST := variable "v" (ast.Named (Some "String")) in
  ast.VariableDefinition_Variable definitionAST = Some (Some "v") ∧
  typeFromAST schema (ast.VariableDefinition_Type definitionAST)
    = Return (Some String_, None) ∧
  IsInputType String_ = true ∧
  (isValidInputValue (H := host) (VInt 1) String_).1 = false ∧
  isNullish (VInt 1) = false ∧
  getVariableValue (H := host) schema definitionAST (VInt 1) =
    Return (VString "", Some (gqlerrors.NewError
      ("Variable " +:+ quoted "$v" +:+ " got invalid value 1." +:+ newline
         +:+ "Expected type " +:+ quoted "String" +:+ ", found "
         +:+ quoted "1" +:+ ".")
      [definitionAST])).
Proof.
  intros definitionAST. do 4 (split; [reflexivity|]).
  split; [apply isNullish_VInt|].
  exact (proj2 (getVariableValue_invalid_message host schema definitionAST "v"
                  (VInt 1) String_ eq_refl eq_refl eq_refl eq_refl
                  (isNullish_VInt 1))).
Defined.

(** X18: for a declared input type that is not a [NonNull], a nullish
    input is bound to the evaluation of the default value of the definition
    under an empty variables map, and to nil when the definition has no
    default value; the default value is not validated. *)
Theorem getVariableValue_nullish_input :
  ∀ (H : Host) schema definitionAST input ttype,
    typeFromAST schema (ast.VariableDefinition_Type definitionAST)
      = Return (Some ttype, None) →
    IsInputType ttype = true →
    (∀ ofType, ttype ≠ NonNull ofType) →
    isNullish input = true →
    getVariableValue schema definitionAST input =
      Return (match ast.VariableDefinition_DefaultValue definitionAST with
              | Some defaultValue =>
                valueFromAST (Some defaultValue) ttype (Some ∅)
              | None => VNil
              end, None).
Proof.
  intros H schema definitionAST input ttype Htype Hin Hnullable Hnull.
  unfold getVariableValue. rewrite Htype. simpl. rewrite Hin.
  rewrite isValidInputValue_nullish by done.
  destruct ttype as [| | | | | | |ofType];
    [..|exfalso; by apply (Hnullable ofType)];
    simpl; rewrite Hnull;
    destruct (ast.VariableDefinition_DefaultValue definitionAST); try done;
    by rewrite coerceValue_nullish.
Qed.

Lemma getVariableValue_nullish_input_witness :
  let definitionAST :=
    {| ast.VariableDefinition_Variable := Some (Some "v");
       ast.VariableDefinition_Type := ast.Named (Some "String");
       ast.VariableDefinition_DefaultValue := Some (ast.IntValue "1") |} in
  typeFromAST schema (ast.VariableDefinition_Type definitionAST)
    = Return (Some String_, None) ∧
  IsInputType String_ = true ∧
  (∀ ofType, String_ ≠ NonNull ofType) ∧
  isNullish VNil = true ∧
  getVariableValue (H := host) schema definitionAST VNil = Return (VNil, None).
Proof.
  intros definitionAST. repeat (split; [reflexivity|]).
  split; [discriminate|]. split; [reflexivity|].
  exact (getVariableValue_nullish_input host schema definitionAST VNil String_
           eq_refl eq_refl (λ ofType, ltac:(discriminate)) eq_refl).
Defined.

(** X19: a variable whose declared type is a [NonNull] around an input
    type is never bound to a nullish value, and is bound only when its input
    is not nullish: a default value of the definition does not stand in for
    a missing input. *)
Theorem getVariableValue_NonNull_bound :
  ∀ (H : Host) schema definitionAST input ofType bound,
    typeFromAST schema (ast.VariableDefinition_Type definitionAST)
      = Return (Some (NonNull ofType), None) →
    IsInputType ofType = true →
    getVariableValue schema definitionAST input = Return (bound, None) →
    isNullish input = false ∧ isNullish bound = false.
Proof.
  intros H schema definitionAST input ofType bound Htype Hin Hbound.
  unfold getVariableValue in Hbound. rewrite Htype in Hbound.
  cbn [run_bind IsInputType] in Hbound. rewrite Hin in Hbound.
  destruct (isValidInputValue input (NonNull ofType)) as [isValid messages]
    eqn:Hvalid.
  destruct isValid; cycle 1.
  { destruct (isNullish input), (variableNameValue definitionAST); done. }
  destruct (isNullish input) eqn:Hnull.
  { rewrite isValidInputValue_nullish in Hvalid by done. done. }
  split; [done|]. injection Hbound as <-.
  apply (coerceValue_valid_not_nullish (NonNull ofType)); [done..|].
  by rewrite Hvalid.
Qed.

Lemma getVariableValue_NonNull_bound_witness :
  let definitionAST := variable "v" (ast.NonNull (ast.Named (Some "String"))) in
  typeFromAST schema (ast.VariableDefinition_Type definitionAST)
    = Return (Some (NonNull String_), None) ∧
  IsInputType String_ = true ∧
  getVariableValue (H := host) schema definitionAST (VString "x")
    = Return (VString "x", None) ∧
  isNullish (VString "x") = false ∧ isNullish (VString "x") = false.
Proof.
  intros definitionAST. do 3 (split; [reflexivity|]).
  exact (getVariableValue_NonNull_bound host schema definitionAST (VString "x")
           String_ (VString "x") eq_refl eq_refl eq_refl).
Defined.

(** The loop over two lists of definitions, one after the other. *)
Lemma bindVariables_app `{Host} schema definitionASTs1 definitionASTs2 inputs values :
  bindVariables schema (definitionASTs1 ++ definitionASTs2) inputs values =
    match bindVariables schema definitionASTs1 inputs values with
    | Return (values1, None) => bindVariables schema definitionASTs2 inputs values1
    | failure => failure
    end.
Proof.
  revert values.
  induction definitionASTs1 as [|[definitionAST|] rest IH]; intros values;
    simpl; [done| |by apply IH].
  destruct (ast.VariableDefinition_Variable definitionAST) as [[varName|]|];
    [|by apply IH..].
  destruct (getVariableValue _ _ _) as [[varValue [e|]]|]; simpl; [done| |done].
  by apply IH.
Qed.

(** X20: [getVariableValues] stops at the first definition that fails:
    binding more definitions after a list that fails gives the failure of
    that list, with the map bound up to it, and after a list that binds it
    continues from the map of that list. *)
Theorem getVariableValues_app :
  ∀ (H : Host) schema definitionASTs1 definitionASTs2 inputs,
    getVariableValues schema (definitionASTs1 ++ definitionASTs2) inputs =
      match getVariableValues schema definitionASTs1 inputs with
      | Return (values1, None) =>
        bindVariables schema definitionASTs2 inputs values1
      | failure => failure
      end.
Proof. intros. apply bindVariables_app. Qed.

(** A name that the definitions do not declare keeps what the map held. *)
Lemma bindVariables_other `{Host} schema definitionASTs inputs values result err name :
  bindVariables schema definitionASTs inputs values = Return (result, err) →
  name ∉ declaredNames definitionASTs →
  result !! name = values !! name.
Proof.
  revert values.
  induction definitionASTs as [|[definitionAST|] rest IH]; intros values Hbind Hname.
  - by injection Hbind as <- _.
  - unfold declaredNames in Hname. simpl in *.
    destruct (ast.VariableDefinition_Variable definitionAST) as [[varName|]|];
      simpl in *; [|by apply IH..].
    apply not_elem_of_cons in Hname as [Hne Hname].
    destruct (getVariableValue _ _ _) as [[varValue [e|]]|]; simpl in Hbind;
      [|apply IH in Hbind|done].
    + by injection Hbind as <- _.
    + by rewrite Hbind, lookup_insert_ne.
    + done.
  - by apply IH.
Qed.

Lemma bindVariables_lookup `{Host} schema definitionASTs inputs values result
    definitionAST name :
  NoDup (declaredNames definitionASTs) →
  Some definitionAST ∈ definitionASTs →
  ast.VariableDefinition_Variable definitionAST = Some (Some name) →
  bindVariables schema definitionASTs inputs values = Return (result, None) →
  ∃ bound,
    getVariableValue schema definitionAST (mapIndex inputs name)
      = Return (bound, None) ∧
    result !! name = Some bound.
Proof.
  revert values.
  induction definitionASTs as [|[first|] rest IH]; intros values Hdup Hin Hvar Hbind.
  - by apply elem_of_nil in Hin.
  - unfold declaredNames in Hdup. simpl in *.
    apply elem_of_cons in Hin as [[= <-]|Hin].
    + rewrite Hvar in *. simpl in *. apply NoDup_cons in Hdup as [Hfresh _].
      destruct (getVariableValue _ _ _) as [[varValue [e|]]|]; simpl in Hbind;
        [done| |done].
      exists varValue. split; [done|].
      by rewrite (bindVariables_other _ _ _ _ _ _ _ Hbind Hfresh), lookup_insert_eq.
    + destruct (ast.VariableDefinition_Variable first) as [[varName|]|];
        simpl in *; [|by eapply IH..].
      apply NoDup_cons in Hdup as [_ Hdup].
      destruct (getVariableValue _ first _) as [[varValue [e|]]|];
        simpl in Hbind; [done| |done].
      by eapply IH.
  - apply elem_of_cons in Hin as [[=]|Hin]. by eapply IH.
Qed.

(** X21: when [getVariableValues] returns without an error and no two
    definitions declare the same name, the map holds, under the name of
    each definition, what [getVariableValue] returns for that definition and
    the input under that name; a variable bound to nil has an entry, which
    holds nil. *)
Theorem getVariableValues_bound :
  ∀ (H : Host) schema definitionASTs inputs values definitionAST name,
    NoDup (declaredNames definitionASTs) →
    Some definitionAST ∈ definitionASTs →
    ast.VariableDefinition_Variable definitionAST = Some (Some name) →
    getVariableValues schema definitionASTs inputs = Return (values, None) →
    ∃ bound,
      getVariableValue schema definitionAST (mapIndex inputs name)
        = Return (bound, None) ∧
      values !! name = Some bound.
Proof. intros *. apply bindVariables_lookup. Qed.

Lemma getVariableValues_bound_witness :
  let definitionAST := variable "s" (ast.Named (Some "String")) in
  let definitionASTs :=
    [Some (variable "v" (ast.Named (Some "Complex"))); Some definitionAST] in
  let inputs : gmap string value := <["v" := VMap ∅]> ∅ in
  let values : gmap string value :=
    <["s" := VNil]> (<["v" := VMap (<["a" := VString "foo"]> ∅)]> ∅) in
  NoDup (declaredNames definitionASTs) ∧
  Some definitionAST ∈ definitionASTs ∧
  ast.VariableDefinition_Variable definitionAST = Some (Some "s") ∧
  (getVariableValues (H := host) schema definitionASTs inputs
     = Return (values, None)) ∧
  ∃ bound,
    getVariableValue (H := host) schema definitionAST (mapIndex inputs "s")
      = Return (bound, None) ∧
    values !! "s" = Some bound.
Proof.
  intros definitionAST definitionASTs inputs values.
  assert (Hdup : NoDup (declaredNames definitionASTs)).
  { apply (NoDup_cons_2 "v" ["s"]); [|apply NoDup_singleton].
    intros Hs. apply list_elem_of_singleton in Hs. discriminate. }
  assert (Hin : Some definitionAST ∈ definitionASTs).
  { apply list_elem_of_further, list_elem_of_here. }
  assert (Hbind : getVariableValues (H := host) schema definitionASTs inputs
                    = Return (values, None)) by by vm_compute.
  split; [exact Hdup|]. split; [exact Hin|]. split; [reflexivity|].
  split; [exact Hbind|].
  exact (getVariableValues_bound host schema definitionASTs inputs values
           definitionAST "s" Hdup Hin eq_refl Hbind).
Defined.

End variables_more.

(** ** Validation followed by coercion *)

Section validated.
Import scenarios.

(** X22: when a sequence is valid for a list of an input type, coercion
    keeps every element that is not nullish: its coercion is not nullish. *)
Theorem coerceValue_valid_elements :
  ∀ (H : Host) itemType elems i x,
    IsInputType itemType = true →
    (isValidInputValue (VSlice elems) (List itemType)).1 = true →
    elems !! i = Some x →
    isNullish x = false →
    ∃ out,
      coerceValue (List itemType) (VSlice elems) = VSlice out ∧
      out !! i = Some (coerceValue itemType x) ∧
      isNullish (coerceValue itemType x) = false.
Proof.
  intros H itemType elems i x Hin Hvalid Hi Hx.
  exists (map (coerceValue itemType) elems). split; [done|]. split.
  - change (map (coerceValue itemType) elems !! i)
      with ((coerceValue itemType <$> elems) !! i).
    by rewrite list_lookup_fmap, Hi.
  - apply coerceValue_valid_not_nullish; [done..|].
    eapply isValidInputValue_List_ok; [done|]. by eapply list_elem_of_lookup_2.
Qed.

Lemma coerceValue_valid_elements_witness :
  IsInputType String_ = true ∧
  (isValidInputValue (H := host) (VSlice [VNil; VString "a"]) (List String_)).1
    = true ∧
  [VNil; VString "a"] !! 1 = Some (VString "a") ∧
  isNullish (VString "a") = false ∧
  ∃ out,
    coerceValue (List String_) (VSlice [VNil; VString "a"]) = VSlice out ∧
    out !! 1 = Some (coerceValue String_ (VString "a")) ∧
    isNullish (coerceValue String_ (VString "a")) = false.
Proof.
  do 4 (split; [reflexivity|]).
  exact (coerceValue_valid_elements host String_ [VNil; VString "a"] 1
           (VString "a") eq_refl eq_refl eq_refl eq_refl).
Defined.

(** X23: for a scalar whose [ParseValue] maps each of its results to
    itself, coercing a sequence under the list type twice gives what coercing
    it once gives. *)
Theorem coerceValue_List_Scalar_idempotent :
  ∀ name ParseValue ParseLiteral elems,
    (∀ v, ParseValue (ParseValue v) = ParseValue v) →
    coerceValue (List (Scalar name ParseValue ParseLiteral))
      (coerceValue (List (Scalar name ParseValue ParseLiteral)) (VSlice elems))
    = coerceValue (List (Scalar name ParseValue ParseLiteral)) (VSlice elems).
Proof.
  intros name ParseValue ParseLiteral elems Hidem.
  rewrite !coerceValue_List_VSlice. f_equal. rewrite map_map.
  apply map_ext. intros v. by apply coerceValue_Scalar_idempotent.
Qed.

Lemma coerceValue_List_Scalar_idempotent_witness :
  let ParseValue := λ v, match v with VString s => VString s | _ => VNil end in
  (∀ v, ParseValue (ParseValue v) = ParseValue v) ∧
  coerceValue (List String_)
    (coerceValue (List String_) (VSlice [VString "a"; VInt 1]))
  = coerceValue (List String_) (VSlice [VString "a"; VInt 1]).
Proof.
  intros ParseValue.
  assert (Hidem : ∀ v, ParseValue (ParseValue v) = ParseValue v)
    by (by intros []).
  split; [exact Hidem|].
  exact (coerceValue_List_Scalar_idempotent "String" ParseValue
           (λ node, match node with ast.StringValue s => VString s | _ => VNil end)
           [VString "a"; VInt 1] Hidem).
Defined.

End validated.
